(** * Lamport-clock machine: a shallow embedding of
      [src/prior/prior_distributed_machine.py] and [preliminary_work/driver.py]

    The two Python files define the same [Machine] class.  Their [run],
    [receive_messages], [send_message], [log_event] and [shutdown] methods are
    textually identical; they differ in [connect_to_peers] (retry loop in the
    first file, a single attempt in the second) and in the range of the
    tick-rate draw.  The top level of this file follows
    [prior_distributed_machine.py]; [Module Driver] holds what [driver.py]
    does differently.

    Python integers are unbounded, so they are [Z].  A Python [str] is a list
    of code points, [bytes] a list of byte values.  Threads, the network, the
    wall clock and the random generator are an explicit environment: every
    value the code obtains from them is a field of an environment record. *)

From Stdlib Require Import ZArith List Bool String Ascii Lia QArith Decimal DecimalZ DecimalPos Sorted.
Import ListNotations.
Local Open Scope Z_scope.

(* ================================================================== *)
(** ** Fragments of the Python runtime used by the code               *)
(* ================================================================== *)

(** A [str] is a sequence of Unicode code points, [bytes] a sequence of
    values in 0..255. *)
Definition str := list Z.
Definition bytes := list Z.

(** String literals of the source, as code points. *)
Fixpoint lit (s : string) : str :=
  match s with
  | EmptyString => []
  | String a r => Z.of_N (N_of_ascii a) :: lit r
  end.

Definition is_cont (b : Z) : bool := (0x80 <=? b) && (b <=? 0xBF).
Definition is_surrogate (c : Z) : bool := (0xD800 <=? c) && (c <=? 0xDFFF).

(** [data.decode("utf-8")] with the default strict error handler: [None]
    stands for [UnicodeDecodeError]. *)
Fixpoint decode_utf8 (bs : bytes) : option str :=
  match bs with
  | [] => Some []
  | b0 :: r0 =>
    if (0 <=? b0) && (b0 <? 0x80) then option_map (cons b0) (decode_utf8 r0)
    else if (0xC2 <=? b0) && (b0 <=? 0xDF) then
      match r0 with
      | b1 :: r1 =>
        if is_cont b1
        then option_map (cons ((b0 - 0xC0) * 64 + (b1 - 0x80))) (decode_utf8 r1)
        else None
      | _ => None
      end
    else if (0xE0 <=? b0) && (b0 <=? 0xEF) then
      match r0 with
      | b1 :: b2 :: r2 =>
        let cp := (b0 - 0xE0) * 4096 + (b1 - 0x80) * 64 + (b2 - 0x80) in
        if is_cont b1 && is_cont b2 && (0x800 <=? cp) && negb (is_surrogate cp)
        then option_map (cons cp) (decode_utf8 r2)
        else None
      | _ => None
      end
    else if (0xF0 <=? b0) && (b0 <=? 0xF4) then
      match r0 with
      | b1 :: b2 :: b3 :: r3 =>
        let cp := (b0 - 0xF0) * 262144 + (b1 - 0x80) * 4096
                  + (b2 - 0x80) * 64 + (b3 - 0x80) in
        if is_cont b1 && is_cont b2 && is_cont b3
           && (0x10000 <=? cp) && (cp <=? 0x10FFFF)
        then option_map (cons cp) (decode_utf8 r3)
        else None
      | _ => None
      end
    else None
  end.

Definition encode_cp (c : Z) : option bytes :=
  if c <? 0 then None
  else if c <? 0x80 then Some [c]
  else if c <? 0x800 then Some [0xC0 + c / 64; 0x80 + c mod 64]
  else if is_surrogate c then None
  else if c <? 0x10000
       then Some [0xE0 + c / 4096; 0x80 + (c / 64) mod 64; 0x80 + c mod 64]
  else if c <=? 0x10FFFF
       then Some [0xF0 + c / 262144; 0x80 + (c / 4096) mod 64;
                  0x80 + (c / 64) mod 64; 0x80 + c mod 64]
  else None.

(** [s.encode("utf-8")]: [None] stands for [UnicodeEncodeError]. *)
Fixpoint encode_utf8 (s : str) : option bytes :=
  match s with
  | [] => Some []
  | c :: r =>
    match encode_cp c, encode_utf8 r with
    | Some b, Some br => Some (b ++ br)
    | _, _ => None
    end
  end.

(** [str.isspace] on one code point: the characters [str.strip()] removes. *)
Definition isspace (c : Z) : bool :=
  ((0x09 <=? c) && (c <=? 0x0D)) || ((0x1C <=? c) && (c <=? 0x20))
  || (c =? 0x85) || (c =? 0xA0) || (c =? 0x1680)
  || ((0x2000 <=? c) && (c <=? 0x200A))
  || (c =? 0x2028) || (c =? 0x2029) || (c =? 0x202F) || (c =? 0x205F)
  || (c =? 0x3000).

Fixpoint skip (p : Z -> bool) (s : str) : str :=
  match s with
  | c :: r => if p c then skip p r else s
  | [] => []
  end.

(** [s.strip()] *)
Definition strip (s : str) : str :=
  List.rev (skip isspace (List.rev (skip isspace s))).

(** [s.split(sep)] for a one-character separator: never the empty list. *)
Fixpoint split (sep : Z) (s : str) : list str :=
  match s with
  | [] => [[]]
  | c :: r =>
    if c =? sep then [] :: split sep r
    else match split sep r with
         | p :: ps => (c :: p) :: ps
         | [] => [[c]]
         end
  end.

Definition colon : Z := 58.
Definition underscore : Z := 95.

Definition is_digit (c : Z) : bool := (48 <=? c) && (c <=? 57).

(** The C-level [Py_ISSPACE] that [int()] skips around the literal. *)
Definition c_isspace (c : Z) : bool := (c =? 32) || ((9 <=? c) && (c <=? 13)).

Definition digit_char (c : Z) (u : uint) : uint :=
  if c =? 48 then D0 u else if c =? 49 then D1 u else if c =? 50 then D2 u
  else if c =? 51 then D3 u else if c =? 52 then D4 u else if c =? 53 then D5 u
  else if c =? 54 then D6 u else if c =? 55 then D7 u else if c =? 56 then D8 u
  else D9 u.

Definition uint_of_digits (ds : list Z) : uint := fold_right digit_char Nil ds.

(** The digit scan of [PyLong_FromString] in base 10: digits with single
    underscores between them.  [prev] is the previous character (0 at the
    start).  Returns the digit characters and the unread rest; [None] for a
    doubled or trailing underscore. *)
Fixpoint scan (s : str) (prev : Z) : option (list Z * str) :=
  match s with
  | c :: r =>
    if is_digit c then
      match scan r c with
      | Some (ds, rest) => Some (c :: ds, rest)
      | None => None
      end
    else if c =? underscore then
      if prev =? underscore then None else scan r c
    else if prev =? underscore then None else Some ([], s)
  | [] => if prev =? underscore then None else Some ([], [])
  end.

Definition is_ascii_str (s : str) : bool := forallb (fun c => c <? 128) s.

Section PyInt.
(** [Py_UNICODE_TODECIMAL] on non-ASCII code points: the decimal-digit table
    of the interpreter's Unicode database.  It depends on the Python
    version, so it is a parameter; ASCII text never consults it. *)
Variable todecimal : Z -> option Z.

(** [_PyUnicode_TransformDecimalAndSpaceToASCII] *)
Fixpoint transform (s : str) : str :=
  match s with
  | [] => []
  | ch :: r =>
    if ch <? 127 then ch :: transform r
    else if isspace ch then 32 :: transform r
    else match todecimal ch with
         | Some d => (48 + d) :: transform r
         | None => [63]
         end
  end.

(** [int(s)] on a [str]: [None] stands for [ValueError].  (The limit on the
    number of digits of recent interpreters, 4300 by default, is not
    modelled: a literal read by [recv(1024)] has at most 1024.) *)
Definition py_int (s : str) : option Z :=
  let t := if is_ascii_str s then s else transform s in
  let t := skip c_isspace t in
  let '(neg, t) :=
    match t with
    | 43 :: r => (false, r)
    | 45 :: r => (true, r)
    | _ => (false, t)
    end in
  match t with
  | 95 :: _ => None
  | _ =>
    match scan t 0 with
    | Some (ds, rest) =>
      match ds, skip c_isspace rest with
      | _ :: _, [] =>
        let v := Z.of_uint (uint_of_digits ds) in
        Some (if neg then - v else v)
      | _, _ => None
      end
    | None => None
    end
  end.
End PyInt.

(** Characters of a [Decimal.uint], most significant digit first. *)
Fixpoint chars_of_uint (u : uint) : str :=
  match u with
  | Nil => []
  | D0 u => 48 :: chars_of_uint u
  | D1 u => 49 :: chars_of_uint u
  | D2 u => 50 :: chars_of_uint u
  | D3 u => 51 :: chars_of_uint u
  | D4 u => 52 :: chars_of_uint u
  | D5 u => 53 :: chars_of_uint u
  | D6 u => 54 :: chars_of_uint u
  | D7 u => 55 :: chars_of_uint u
  | D8 u => 56 :: chars_of_uint u
  | D9 u => 57 :: chars_of_uint u
  end.

(** [f"{n}"] for an [int]: decimal digits, a minus sign for negatives.
    (Integers are unbounded; the same limit on the number of digits is not
    modelled here either.) *)
Definition str_of_int (n : Z) : str :=
  match Z.to_int n with
  | Pos u => chars_of_uint u
  | Neg u => 45 :: chars_of_uint u
  end.

(* ================================================================== *)
(** ** Data model                                                     *)
(* ================================================================== *)

(** A socket object is identified by the order of its creation. *)
Definition Sock := nat.

(** A peer address [(host, port)]. *)
Definition Addr := (str * Z)%type.

Fixpoint str_eqb (a b : str) : bool :=
  match a, b with
  | [], [] => true
  | x :: a', y :: b' => (x =? y) && str_eqb a' b'
  | _, _ => false
  end.

(** [phost == host and pport == port] *)
Definition addr_eqb (p q : Addr) : bool :=
  str_eqb (fst p) (fst q) && (snd p =? snd q).

(** One line of [machine_<id>.log], by its fields:
    [<now>, <event_type>, L=<clock>[, queue=<n>][, <note>]]. *)
Record LogLine := {
  ll_now : Q;
  ll_event : str;
  ll_L : Z;
  ll_queue : option Z;
  ll_note : option str
}.

(** The messages printed to [sys.stderr] (the exception text is left out). *)
Inductive ErrLine :=
| ErrConnect (machine : Z) (attempt max_retries : nat) (peer : Addr)
| ErrConnectOnce (peer : Addr)
| ErrReceiving
| ErrSending.

(** One [sock.sendall(data)] call and whether it returned or raised. *)
Record SendAttempt := { sa_sock : Sock; sa_data : bytes; sa_ok : bool }.

(** The attributes of a [Machine] object, followed by the effects it has had
    on the outside: sockets created and closed, bytes handed to [sendall],
    lines printed, time slept. *)
Record Machine := {
  machine_id : Z;
  listen_host : str;
  listen_port : Z;
  peer_info : list Addr;
  logical_clock : Z;
  msg_queue : list Z;
  ticks_per_second : Z;
  cycle_time : Q;
  log_file : list LogLine;
  log_closed : bool;
  server_socket : Sock;
  peer_sockets : list (Addr * Sock);
  next_sock : Sock;
  closed : list Sock;
  wire : list SendAttempt;
  stderr : list ErrLine;
  stdout : list Z;
  sleeps : list Q
}.

Definition set_logical_clock (v : Z) (m : Machine) : Machine :=
  Build_Machine (machine_id m) (listen_host m) (listen_port m) (peer_info m)
    v (msg_queue m) (ticks_per_second m) (cycle_time m) (log_file m)
    (log_closed m) (server_socket m) (peer_sockets m) (next_sock m) (closed m)
    (wire m) (stderr m) (stdout m) (sleeps m).

Definition set_msg_queue (v : list Z) (m : Machine) : Machine :=
  Build_Machine (machine_id m) (listen_host m) (listen_port m) (peer_info m)
    (logical_clock m) v (ticks_per_second m) (cycle_time m) (log_file m)
    (log_closed m) (server_socket m) (peer_sockets m) (next_sock m) (closed m)
    (wire m) (stderr m) (stdout m) (sleeps m).

Definition set_log_file (v : list LogLine) (m : Machine) : Machine :=
  Build_Machine (machine_id m) (listen_host m) (listen_port m) (peer_info m)
    (logical_clock m) (msg_queue m) (ticks_per_second m) (cycle_time m) v
    (log_closed m) (server_socket m) (peer_sockets m) (next_sock m) (closed m)
    (wire m) (stderr m) (stdout m) (sleeps m).

Definition set_log_closed (v : bool) (m : Machine) : Machine :=
  Build_Machine (machine_id m) (listen_host m) (listen_port m) (peer_info m)
    (logical_clock m) (msg_queue m) (ticks_per_second m) (cycle_time m)
    (log_file m) v (server_socket m) (peer_sockets m) (next_sock m) (closed m)
    (wire m) (stderr m) (stdout m) (sleeps m).

Definition set_peer_sockets (v : list (Addr * Sock)) (m : Machine) : Machine :=
  Build_Machine (machine_id m) (listen_host m) (listen_port m) (peer_info m)
    (logical_clock m) (msg_queue m) (ticks_per_second m) (cycle_time m)
    (log_file m) (log_closed m) (server_socket m) v (next_sock m) (closed m)
    (wire m) (stderr m) (stdout m) (sleeps m).

Definition set_next_sock (v : Sock) (m : Machine) : Machine :=
  Build_Machine (machine_id m) (listen_host m) (listen_port m) (peer_info m)
    (logical_clock m) (msg_queue m) (ticks_per_second m) (cycle_time m)
    (log_file m) (log_closed m) (server_socket m) (peer_sockets m) v (closed m)
    (wire m) (stderr m) (stdout m) (sleeps m).

Definition set_closed (v : list Sock) (m : Machine) : Machine :=
  Build_Machine (machine_id m) (listen_host m) (listen_port m) (peer_info m)
    (logical_clock m) (msg_queue m) (ticks_per_second m) (cycle_time m)
    (log_file m) (log_closed m) (server_socket m) (peer_sockets m)
    (next_sock m) v (wire m) (stderr m) (stdout m) (sleeps m).

Definition set_wire (v : list SendAttempt) (m : Machine) : Machine :=
  Build_Machine (machine_id m) (listen_host m) (listen_port m) (peer_info m)
    (logical_clock m) (msg_queue m) (ticks_per_second m) (cycle_time m)
    (log_file m) (log_closed m) (server_socket m) (peer_sockets m)
    (next_sock m) (closed m) v (stderr m) (stdout m) (sleeps m).

Definition set_stderr (v : list ErrLine) (m : Machine) : Machine :=
  Build_Machine (machine_id m) (listen_host m) (listen_port m) (peer_info m)
    (logical_clock m) (msg_queue m) (ticks_per_second m) (cycle_time m)
    (log_file m) (log_closed m) (server_socket m) (peer_sockets m)
    (next_sock m) (closed m) (wire m) v (stdout m) (sleeps m).

Definition set_stdout (v : list Z) (m : Machine) : Machine :=
  Build_Machine (machine_id m) (listen_host m) (listen_port m) (peer_info m)
    (logical_clock m) (msg_queue m) (ticks_per_second m) (cycle_time m)
    (log_file m) (log_closed m) (server_socket m) (peer_sockets m)
    (next_sock m) (closed m) (wire m) (stderr m) v (sleeps m).

Definition set_sleeps (v : list Q) (m : Machine) : Machine :=
  Build_Machine (machine_id m) (listen_host m) (listen_port m) (peer_info m)
    (logical_clock m) (msg_queue m) (ticks_per_second m) (cycle_time m)
    (log_file m) (log_closed m) (server_socket m) (peer_sockets m)
    (next_sock m) (closed m) (wire m) (stderr m) (stdout m) v.

(** *** Elementary effects *)

(** [print(..., file=sys.stderr)] *)
Definition eprint (l : ErrLine) (m : Machine) : Machine :=
  set_stderr (stderr m ++ [l]) m.

(** [time.sleep(d)] *)
Definition sleep (d : Q) (m : Machine) : Machine :=
  set_sleeps (sleeps m ++ [d]) m.

(** [sock.close()] *)
Definition close (sock : Sock) (m : Machine) : Machine :=
  set_closed (closed m ++ [sock]) m.

(** [self.msg_queue.put(v)], and a batch of them by the receive workers. *)
Definition put (v : Z) (m : Machine) : Machine :=
  set_msg_queue (msg_queue m ++ [v]) m.
Definition put_all (vs : list Z) (m : Machine) : Machine :=
  set_msg_queue (msg_queue m ++ vs) m.

(** [self.peer_sockets[key] = sock]: a Python dict keeps insertion order and
    an assignment to a key already present keeps that key's position. *)
Fixpoint dict_set (key : Addr) (sock : Sock) (d : list (Addr * Sock))
  : list (Addr * Sock) :=
  match d with
  | [] => [(key, sock)]
  | (k, v) :: r =>
    if addr_eqb k key then (k, sock) :: r else (k, v) :: dict_set key sock r
  end.

Fixpoint dict_get (key : Addr) (d : list (Addr * Sock)) : option Sock :=
  match d with
  | [] => None
  | (k, v) :: r => if addr_eqb k key then Some v else dict_get key r
  end.

(** [self.peer_sockets.values()] *)
Definition values (d : list (Addr * Sock)) : list Sock := map snd d.

Definition Qltb (x y : Q) : bool := negb (Qle_bool y x).

(* ================================================================== *)
(** ** Operations of [Machine]                                        *)
(* ================================================================== *)

(** *** Clock: the two kinds of assignment to [self.logical_clock] *)

(** [self.logical_clock = max(self.logical_clock, their_clock) + 1] *)
Definition clock_receive (their_clock : Z) (m : Machine) : Machine :=
  set_logical_clock (Z.max (logical_clock m) their_clock + 1) m.

(** [self.logical_clock += 1] *)
Definition clock_advance (m : Machine) : Machine :=
  set_logical_clock (logical_clock m + 1) m.

(** *** [log_event]: the clock value written is the one at the call; an empty
    note is falsy and left out like [None]. *)
Definition log_event (now : Q) (event_type : str) (queue_len : option Z)
    (note : option str) (m : Machine) : Machine :=
  set_log_file
    (log_file m ++
      [ {| ll_now := now;
           ll_event := event_type;
           ll_L := logical_clock m;
           ll_queue := queue_len;
           ll_note := match note with Some [] => None | n => n end |} ]) m.

(** *** Wire codec *)

(** [f"{self.logical_clock}:{self.machine_id}"] *)
Definition format_msg (clock id : Z) : str :=
  str_of_int clock ++ colon :: str_of_int id.

(** [send_message]: [send_ok sock] tells whether [sock.sendall] returns; any
    exception inside the [try] is printed and swallowed. *)
Definition send_message (send_ok : Sock -> bool) (sock : Sock) (m : Machine)
  : Machine :=
  let msg_str := format_msg (logical_clock m) (machine_id m) in
  match encode_utf8 msg_str with
  | Some data =>
    let m := set_wire (wire m ++ [ {| sa_sock := sock; sa_data := data;
                                      sa_ok := send_ok sock |} ]) m in
    if send_ok sock then m else eprint ErrSending m
  | None => eprint ErrSending m
  end.

Section Decode.
Variable todecimal : Z -> option Z.

(** The body of the [try] in [receive_messages] after the empty-read test:
    decode, strip, split on [":"], [int(parts[0])].  [None] stands for any
    exception raised there. *)
Definition parse_record (data : bytes) : option Z :=
  match decode_utf8 data with
  | Some text =>
    match split colon (strip text) with
    | first :: _ => py_int todecimal first
    | [] => None
    end
  | None => None
  end.
End Decode.

(** *** Receive worker *)

(** What one [sock.recv(1024)] call gives: bytes (none when the peer has
    closed) or an exception. *)
Inductive recv_result :=
| RecvData (data : bytes)
| RecvError.

Inductive worker_status :=
| Blocked   (* waiting in [recv]: nothing more has arrived yet *)
| Exited.   (* left the loop and returned *)

(** [receive_messages(sock)] run against the successive results of its
    [recv] calls. *)
Fixpoint receive_messages (todecimal : Z -> option Z) (sock : Sock)
    (reads : list recv_result) (m : Machine) : Machine * worker_status :=
  match reads with
  | [] => (m, Blocked)
  | RecvError :: _ => (close sock (eprint ErrReceiving m), Exited)
  | RecvData data :: rest =>
    match data with
    | [] => (close sock m, Exited)
    | _ :: _ =>
      match parse_record todecimal data with
      | Some their_clock =>
        receive_messages todecimal sock rest (put their_clock m)
      | None => (close sock (eprint ErrReceiving m), Exited)
      end
    end
  end.

(** *** Peer registry *)

Definition max_retries : nat := 5.

(** The inner [for attempt in range(1, max_retries + 1)] loop for one peer,
    from [attempt] on with [remaining] iterations to go.  Every iteration
    creates a socket; [ok attempt] tells whether [sock.connect] returns. *)
Fixpoint connect_attempts (ok : nat -> bool) (peer : Addr)
    (attempt remaining : nat) (m : Machine) : Machine :=
  match remaining with
  | O => m
  | S remaining' =>
    let sock := next_sock m in
    let m := set_next_sock (S sock) m in
    if ok attempt then
      set_peer_sockets (dict_set peer sock (peer_sockets m)) m
    else
      let m := eprint (ErrConnect (machine_id m) attempt max_retries peer) m in
      let m := if (attempt <? max_retries)%nat then sleep 1%Q m else m in
      connect_attempts ok peer (S attempt) remaining' m
  end.

(** The outer loop over [self.peer_info]; [i] is the position of the entry,
    [connect_ok i k] the outcome of its [k]-th connection attempt. *)
Fixpoint connect_each (connect_ok : nat -> nat -> bool) (i : nat)
    (peers : list Addr) (m : Machine) : Machine :=
  match peers with
  | [] => m
  | p :: rest =>
    let m :=
      if addr_eqb p (listen_host m, listen_port m) then m
      else connect_attempts (connect_ok i) p 1 max_retries m in
    connect_each connect_ok (S i) rest m
  end.

Definition connect_to_peers (connect_ok : nat -> nat -> bool) (m : Machine)
  : Machine :=
  connect_each connect_ok 0 (peer_info m) m.

Module Driver.
(** [preliminary_work/driver.py]: one attempt per peer, no retry. *)
Fixpoint connect_each (connect_ok : nat -> nat -> bool) (i : nat)
    (peers : list Addr) (m : Machine) : Machine :=
  match peers with
  | [] => m
  | p :: rest =>
    let m :=
      if addr_eqb p (listen_host m, listen_port m) then m
      else
        let sock := next_sock m in
        let m := set_next_sock (S sock) m in
        if connect_ok i 1%nat then
          set_peer_sockets (dict_set p sock (peer_sockets m)) m
        else eprint (ErrConnectOnce p) m in
    connect_each connect_ok (S i) rest m
  end.

Definition connect_to_peers (connect_ok : nat -> nat -> bool) (m : Machine)
  : Machine :=
  connect_each connect_ok 0 (peer_info m) m.
End Driver.

(** *** Construction *)

(** What [__init__] takes from outside. *)
Record InitEnv := {
  randint_1_12 : Z;                   (* random.randint(1, 12) *)
  connect_ok : nat -> nat -> bool;    (* outcomes of sock.connect *)
  t_init : Q                          (* time.time() in log_event *)
}.

(** The attributes [__init__] sets before it connects to the peers.  The
    server socket is the first socket created; the log file is opened for
    writing, hence empty. *)
Definition attributes (id : Z) (host : str) (port : Z) (peers : list Addr)
    (e : InitEnv) : Machine :=
  {| machine_id := id; listen_host := host; listen_port := port;
     peer_info := peers;
     logical_clock := 0;
     msg_queue := [];
     ticks_per_second := randint_1_12 e;
     cycle_time := (1 / inject_Z (randint_1_12 e))%Q;
     log_file := []; log_closed := false;
     server_socket := 0%nat;
     peer_sockets := [];
     next_sock := 1%nat;
     closed := []; wire := []; stderr := []; stdout := []; sleeps := [] |}.

(** [Machine.__init__], from the parsed peer list on. *)
Definition init (id : Z) (host : str) (port : Z) (peers : list Addr)
    (e : InitEnv) : Machine :=
  let m := attributes id host port peers e in
  let m := connect_to_peers (connect_ok e) m in
  log_event (t_init e) (lit "INIT") None
    (Some (lit "ticks=" ++ str_of_int (ticks_per_second m))) m.

(** *** Simulation loop *)

(** What one iteration of the [while] loop takes from outside, in the order
    the code asks for it.  The three [arrived_] fields are the values that
    receive workers put on the queue up to that point of the iteration. *)
Record TickEnv := {
  t_guard : Q;                      (* time.time() in the loop condition *)
  t_cycle_start : Q;                (* cycle_start = time.time() *)
  arrived_before_empty : list Z;    (* since the previous iteration's qsize *)
  arrived_before_get : list Z;      (* between empty() and get() *)
  arrived_before_qsize : list Z;    (* between get() and qsize() *)
  randint_1_10 : Z;                 (* random.randint(1, 10) *)
  choice_index : nat;               (* position picked by random.choice *)
  send_ok : Sock -> bool;           (* does sendall on this socket return *)
  t_log : Q;                        (* time.time() in log_event *)
  t_end : Q                         (* time.time() for elapsed *)
}.

(** The [else] branch of the loop body (lines 161-195): no message was
    queued, so one random event. *)
Definition random_event (e : TickEnv) (m : Machine) : Machine :=
  let r := randint_1_10 e in
  if r =? 1 then
    let m := clock_advance m in
    let m :=
      match peer_sockets m with
      | _ :: _ =>
        let all_socks := values (peer_sockets m) in
        match nth_error all_socks
                (choice_index e mod List.length all_socks)%nat with
        | Some sock => send_message (send_ok e) sock m
        | None => m
        end
      | [] => m
      end in
    log_event (t_log e) (lit "SEND(1)") None None m
  else if r =? 2 then
    let m := clock_advance m in
    let m :=
      if (2 <=? List.length (peer_sockets m))%nat then
        let all_socks := values (peer_sockets m) in
        match nth_error all_socks (1 mod List.length all_socks)%nat with
        | Some sock => send_message (send_ok e) sock m
        | None => m
        end
      else
        match peer_sockets m with
        | _ :: _ =>
          match nth_error (values (peer_sockets m)) 0 with
          | Some sock => send_message (send_ok e) sock m
          | None => m
          end
        | [] => m
        end in
    log_event (t_log e) (lit "SEND(2)") None None m
  else if r =? 3 then
    let m := clock_advance m in
    let m := fold_left (fun m sock => send_message (send_ok e) sock m)
               (values (peer_sockets m)) m in
    log_event (t_log e) (lit "SEND(3)") None None m
  else
    let m := clock_advance m in
    log_event (t_log e) (lit "INTERNAL") None None m.

(** The [if]/[else] of the loop body (lines 154-195). *)
Definition tick_action (e : TickEnv) (m : Machine) : Machine :=
  let m := put_all (arrived_before_empty e) m in
  match msg_queue m with
  | _ :: _ =>
    let m := put_all (arrived_before_get e) m in
    match msg_queue m with
    | their_clock :: rest =>
      let m := set_msg_queue rest m in
      let m := clock_receive their_clock m in
      let m := put_all (arrived_before_qsize e) m in
      log_event (t_log e) (lit "RECEIVE")
        (Some (Z.of_nat (List.length (msg_queue m)))) None m
    | [] => m
    end
  | [] => random_event e m
  end.

(** One iteration: the action, then the sleep that holds the tick rate. *)
Definition tick (e : TickEnv) (m : Machine) : Machine :=
  let m := tick_action e m in
  let elapsed := (t_end e - t_cycle_start e)%Q in
  let to_sleep := (cycle_time m - elapsed)%Q in
  if Qltb 0 to_sleep then sleep to_sleep m else m.

(** [shutdown] *)
Definition shutdown (now : Q) (m : Machine) : Machine :=
  let m := log_event now (lit "SHUTDOWN") None None m in
  let m := set_log_closed true m in
  let m := close (server_socket m) m in
  let m := fold_left (fun m sock => close sock m) (values (peer_sockets m)) m in
  set_stdout (stdout m ++ [machine_id m]) m.

(** The loop condition [(time.time() - start_time) < run_time]. *)
Definition running (start_time : Q) (run_time : Z) (e : TickEnv) : bool :=
  Qltb (t_guard e - start_time) (inject_Z run_time).

(** The [while] loop of [run] against the environments of its successive
    iterations: it stops at the first one whose guard fails.  [None] when the
    given environments end while the loop is still running. *)
Fixpoint run_loop (start_time : Q) (run_time : Z) (envs : list TickEnv)
    (m : Machine) : option Machine :=
  match envs with
  | [] => None
  | e :: rest =>
    if running start_time run_time e
    then run_loop start_time run_time rest (tick e m)
    else Some m
  end.

(** [run(run_time)] *)
Definition run (run_time : Z) (start_time : Q) (envs : list TickEnv)
    (t_shutdown : Q) (m : Machine) : option Machine :=
  option_map (shutdown t_shutdown) (run_loop start_time run_time envs m).

(** The ticks alone, without the guard. *)
Definition ticks (envs : list TickEnv) (m : Machine) : Machine :=
  fold_left (fun m e => tick e m) envs m.

(* ================================================================== *)
(** ** Notions used in the statements                                 *)
(* ================================================================== *)

(** A sequence of receive updates, one per value. *)
Definition receive_all (vs : list Z) (m : Machine) : Machine :=
  fold_left (fun m v => clock_receive v m) vs m.

(** Everything but [logical_clock] is the same. *)
Definition same_but_clock (m m' : Machine) : Prop :=
  machine_id m' = machine_id m /\ listen_host m' = listen_host m /\
  listen_port m' = listen_port m /\ peer_info m' = peer_info m /\
  msg_queue m' = msg_queue m /\ ticks_per_second m' = ticks_per_second m /\
  cycle_time m' = cycle_time m /\ log_file m' = log_file m /\
  log_closed m' = log_closed m /\ server_socket m' = server_socket m /\
  peer_sockets m' = peer_sockets m /\ next_sock m' = next_sock m /\
  closed m' = closed m /\ wire m' = wire m /\ stderr m' = stderr m /\
  stdout m' = stdout m /\ sleeps m' = sleeps m.

(** The attributes and resources that no iteration of the loop touches. *)
Definition fixed_part (m : Machine) :=
  (machine_id m, listen_host m, listen_port m, peer_info m,
   ticks_per_second m, cycle_time m, server_socket m, peer_sockets m,
   next_sock m, log_closed m, closed m, stdout m).

(** The queue as [self.msg_queue.empty()] sees it in an iteration. *)
Definition queue_at_check (e : TickEnv) (m : Machine) : list Z :=
  msg_queue m ++ arrived_before_empty e.

(** A log line without note. *)
Definition log_line (now : Q) (event_type : string) (L : Z)
    (queue_len : option Z) : LogLine :=
  {| ll_now := now; ll_event := lit event_type; ll_L := L;
     ll_queue := queue_len; ll_note := None |}.

(** The [sendall] call that carries clock value [c] of machine [id] to
    [sock] in iteration [e]. *)
Definition attempt (e : TickEnv) (c id : Z) (sock : Sock) : SendAttempt :=
  {| sa_sock := sock; sa_data := format_msg c id; sa_ok := send_ok e sock |}.

(** The event kind a random event logs, by the draw. *)
Definition event_kind (e : TickEnv) : string :=
  if randint_1_10 e =? 1 then "SEND(1)"
  else if randint_1_10 e =? 2 then "SEND(2)"
  else if randint_1_10 e =? 3 then "SEND(3)"
  else "INTERNAL".

(** The sockets a random event sends to, in order. *)
Definition targets (e : TickEnv) (m : Machine) : list Sock :=
  let all_socks := values (peer_sockets m) in
  if randint_1_10 e =? 1 then
    match nth_error all_socks (choice_index e mod List.length all_socks)%nat with
    | Some sock => [sock]
    | None => []
    end
  else if randint_1_10 e =? 2 then
    match all_socks with
    | _ :: second :: _ => [second]
    | [only] => [only]
    | [] => []
    end
  else if randint_1_10 e =? 3 then all_socks
  else [].

(** Sockets that are pairwise different objects, the server socket
    included, and all created before [next_sock]. *)
Definition sockets_distinct (m : Machine) : Prop :=
  NoDup (server_socket m :: values (peer_sockets m))
  /\ Forall (fun s => (s < next_sock m)%nat)
       (server_socket m :: values (peer_sockets m)).

(** The attempt of the retry loop that connects, if any, among the
    [remaining] ones from [attempt] on; and the attempts that fail before. *)
Fixpoint first_success (ok : nat -> bool) (attempt remaining : nat)
  : option nat :=
  match remaining with
  | O => None
  | S r => if ok attempt then Some attempt
           else first_success ok (S attempt) r
  end.

Fixpoint failed (ok : nat -> bool) (attempt remaining : nat) : list nat :=
  match remaining with
  | O => []
  | S r => if ok attempt then [] else attempt :: failed ok (S attempt) r
  end.

(** The peers with an outbound connection: the keys of [peer_sockets]. *)
Definition connected (m : Machine) : list Addr := map fst (peer_sockets m).

(** What connecting leaves alone. *)
Definition apart_from_connecting (m : Machine) :=
  (machine_id m, listen_host m, listen_port m, peer_info m, logical_clock m,
   msg_queue m, ticks_per_second m, cycle_time m, log_file m, log_closed m,
   server_socket m, closed m, wire m, stdout m).

(** The event kinds an iteration of the loop can log. *)
Definition tick_kinds : list str :=
  [lit "RECEIVE"; lit "SEND(1)"; lit "SEND(2)"; lit "SEND(3)"; lit "INTERNAL"].

(** Is this a SHUTDOWN line. *)
Definition is_shutdown (l : LogLine) : bool := str_eqb (ll_event l) (lit "SHUTDOWN").

(** The INIT line of a machine with tick rate [tps]. *)
Definition init_line (now : Q) (tps : Z) : LogLine :=
  {| ll_now := now; ll_event := lit "INIT"; ll_L := 0; ll_queue := None;
     ll_note := Some (lit "ticks=" ++ str_of_int tps) |}.

(** The same iteration with other outcomes of [sendall]. *)
Definition with_send_ok (f : Sock -> bool) (e : TickEnv) : TickEnv :=
  {| t_guard := t_guard e; t_cycle_start := t_cycle_start e;
     arrived_before_empty := arrived_before_empty e;
     arrived_before_get := arrived_before_get e;
     arrived_before_qsize := arrived_before_qsize e;
     randint_1_10 := randint_1_10 e; choice_index := choice_index e;
     send_ok := f; t_log := t_log e; t_end := t_end e |}.

(** The reads that end a receive worker: an exception in [recv], an empty
    read, or bytes on which the decoding raises. *)
Definition terminal (todecimal : Z -> option Z) (r : recv_result) : bool :=
  match r with
  | RecvError => true
  | RecvData [] => true
  | RecvData data =>
    match parse_record todecimal data with
    | Some _ => false
    | None => true
    end
  end.

(** The clock values a worker puts on the queue: those of the reads before
    the first terminal one. *)
Fixpoint accepted (todecimal : Z -> option Z) (reads : list recv_result)
  : list Z :=
  match reads with
  | RecvData (b :: data) :: rest =>
    match parse_record todecimal (b :: data) with
    | Some v => v :: accepted todecimal rest
    | None => []
    end
  | _ => []
  end.

(** How a worker stands after a sequence of reads: still reading, returned
    after an empty read, or returned after an exception. *)
Inductive worker_end := StillReading | PeerClosed | Aborted.

Definition outcome (todecimal : Z -> option Z) (reads : list recv_result)
  : worker_end :=
  match find (terminal todecimal) reads with
  | None => StillReading
  | Some (RecvData []) => PeerClosed
  | Some _ => Aborted
  end.

(** What a receive worker leaves alone: everything but the queue, the
    closed sockets and [stderr]. *)
Definition apart_from_receiving (m : Machine) :=
  (machine_id m, listen_host m, listen_port m, peer_info m, logical_clock m,
   ticks_per_second m, cycle_time m, log_file m, log_closed m,
   server_socket m, peer_sockets m, next_sock m, wire m, stdout m, sleeps m).

(** Classes of characters: one-byte code points, the characters of a
    formatted integer, and those [strip] keeps. *)
Definition plain (c : Z) : Prop := 0 <= c < 128.
Definition numeric (c : Z) : Prop := c = 45 \/ 48 <= c <= 57.
Definition visible (c : Z) : Prop := isspace c = false.

(** A machine as [main] has it when [run] starts. *)
Definition example_env : InitEnv :=
  {| randint_1_12 := 4;
     connect_ok := fun _ k => (3 <=? k)%nat;
     t_init := 0%Q |}.

Definition localhost : str := lit "127.0.0.1".

Definition example_machine : Machine :=
  init 1 localhost 5001
    [(localhost, 5001); (localhost, 5002); (localhost, 5003)] example_env.

(** An environment in which no peer ever listens. *)
Definition unreachable_env : InitEnv :=
  {| randint_1_12 := 4; connect_ok := fun _ _ => false; t_init := 0%Q |}.

Definition example_tick (r : Z) (arrived : list Z) : TickEnv :=
  {| t_guard := 1%Q; t_cycle_start := 1%Q;
     arrived_before_empty := arrived; arrived_before_get := [];
     arrived_before_qsize := [];
     randint_1_10 := r; choice_index := 0;
     send_ok := fun s => Nat.eqb s 3;
     t_log := 1%Q; t_end := 1%Q |}.

Definition example_expired : TickEnv :=
  {| t_guard := 60%Q; t_cycle_start := 60%Q;
     arrived_before_empty := []; arrived_before_get := [];
     arrived_before_qsize := [];
     randint_1_10 := 7; choice_index := 0;
     send_ok := fun _ => true;
     t_log := 60%Q; t_end := 60%Q |}.

(* ================================================================== *)
(** ** The rest of the two files                                      *)
(* ================================================================== *)

(** *** The peer list in [__init__] (lines 15-22)

    [peers_str] is split on [","]; every piece is stripped and split on
    [":"]; the host is the first field, the port is [int] of the second. *)

Definition comma : Z := 44.

(** The exceptions this part of [__init__] can raise. *)
Inductive init_error :=
| IndexError    (* [host_port[1]] on a piece without colon *)
| ValueError.   (* [int(host_port[1])] on text that is no integer *)

Section Peers.
Variable todecimal : Z -> option Z.

(** The body of the [for p in peers_str.split(",")] loop. *)
Definition parse_peer (p : str) : init_error + Addr :=
  match split colon (strip p) with
  | phost :: port_text :: _ =>
    match py_int todecimal port_text with
    | Some pport => inr (phost, pport)
    | None => inl ValueError
    end
  | _ => inl IndexError
  end.

(** The loop: the first piece that raises ends it. *)
Fixpoint parse_each (pieces : list str) : init_error + list Addr :=
  match pieces with
  | [] => inr []
  | p :: rest =>
    match parse_peer p with
    | inl err => inl err
    | inr a =>
      match parse_each rest with
      | inl err => inl err
      | inr l => inr (a :: l)
      end
    end
  end.

Definition parse_peers (peers_str : str) : init_error + list Addr :=
  parse_each (split comma peers_str).

End Peers.

(** [sep.join(parts)], to write a peer list the way line 15 gives it:
    ["host1:port1,host2:port2,..."]. *)
Fixpoint join (sep : Z) (parts : list str) : str :=
  match parts with
  | [] => []
  | [p] => p
  | p :: rest => p ++ sep :: join sep rest
  end.

Definition format_peer (a : Addr) : str :=
  fst a ++ colon :: str_of_int (snd a).

Definition format_peers (peers : list Addr) : str :=
  join comma (map format_peer peers).

(** A host name that survives the parsing as it is: no blank, no colon, no
    comma. *)
Definition plain_host (h : str) : Prop :=
  Forall (fun c => isspace c = false /\ c <> colon /\ c <> comma) h.

(** Number of occurrences of a character. *)
Definition occurrences (c : Z) (s : str) : nat :=
  List.length (filter (Z.eqb c) s).

(** Number of digits of an integer written in decimal.  [int] refuses a
    literal with more digits than the interpreter's limit
    ([sys.get_int_max_str_digits()], 4300 unless configured otherwise);
    that limit is either off or at least 640, so a literal of at most 640
    digits is within it under every configuration. *)
Definition decimal_digits (n : Z) : nat :=
  List.length (filter is_digit (str_of_int n)).

Definition str_digits_check_threshold : nat := 640.

(** *** [preliminary_work/driver.py]: construction *)

Module Preliminary.
(** [__init__] of [driver.py], from the parsed peer list on: the tick rate is
    [random.randint(1, 6)] (the field [randint_1_12] holds the draw) and the
    peers are tried once each. *)
Definition init (id : Z) (host : str) (port : Z) (peers : list Addr)
    (e : InitEnv) : Machine :=
  let m := attributes id host port peers e in
  let m := Driver.connect_to_peers (connect_ok e) m in
  log_event (t_init e) (lit "INIT") None
    (Some (lit "ticks=" ++ str_of_int (ticks_per_second m))) m.
End Preliminary.

(** An environment in which every peer answers the first attempt. *)
Definition reachable_env : InitEnv :=
  {| randint_1_12 := 4; connect_ok := fun _ _ => true; t_init := 0%Q |}.

(** *** Notions for the statements about whole runs *)

(** The value an iteration takes off the queue, if any; and the values that
    reach the queue during the iteration. *)
Definition consumed (e : TickEnv) (m : Machine) : list Z :=
  match queue_at_check e m with
  | v :: _ => [v]
  | [] => []
  end.

Definition arrivals (e : TickEnv) (m : Machine) : list Z :=
  arrived_before_empty e ++
  match queue_at_check e m with
  | _ :: _ => arrived_before_get e ++ arrived_before_qsize e
  | [] => []
  end.

Fixpoint consumed_all (envs : list TickEnv) (m : Machine) : list Z :=
  match envs with
  | [] => []
  | e :: rest => consumed e m ++ consumed_all rest (tick e m)
  end.

Fixpoint arrivals_all (envs : list TickEnv) (m : Machine) : list Z :=
  match envs with
  | [] => []
  | e :: rest => arrivals e m ++ arrivals_all rest (tick e m)
  end.

(** A send attempt of machine [m] as it should be: to one of its peer
    sockets, carrying a clock value the machine has had since start-up. *)
Definition sound_attempt (m : Machine) (a : SendAttempt) : Prop :=
  In (sa_sock a) (values (peer_sockets m))
  /\ exists c, 1 <= c <= logical_clock m
              /\ sa_data a = format_msg c (machine_id m).

(** A stream of reads that carries one well-formed record each. *)
Definition record_reads (records : list (Z * Z)) : list recv_result :=
  map (fun r => RecvData (format_msg (fst r) (snd r))) records.

(** The address a machine listens on. *)
Definition own_address (m : Machine) : Addr := (listen_host m, listen_port m).

(** *** What [connect_to_peers] prints and sleeps, entry by entry *)

(** The lines on [stderr] and the sleeps that entry [i] of [peer_info],
    holding address [p], accounts for in [prior_distributed_machine.py]:
    none when [p] is the machine's own address; otherwise one line per failed
    attempt, and one second of sleep after each failed attempt but the
    last of the [max_retries]. *)
Definition entry_errors (id : Z) (self : Addr) (ok : nat -> nat -> bool)
    (i : nat) (p : Addr) : list ErrLine :=
  if addr_eqb p self then []
  else map (fun k => ErrConnect id k max_retries p)
         (failed (ok i) 1 max_retries).

Definition entry_sleeps (self : Addr) (ok : nat -> nat -> bool)
    (i : nat) (p : Addr) : list Q :=
  if addr_eqb p self then []
  else map (fun _ => 1%Q)
         (filter (fun k => (k <? max_retries)%nat)
            (failed (ok i) 1 max_retries)).

(** The attempts made for entry [i], by number: the failed ones, then the
    one that succeeded, if any.  Each creates one socket. *)
Definition entry_attempts (self : Addr) (ok : nat -> nat -> bool)
    (i : nat) (p : Addr) : list nat :=
  if addr_eqb p self then []
  else failed (ok i) 1 max_retries
       ++ match first_success (ok i) 1 max_retries with
          | Some k => [k]
          | None => []
          end.

(** The same for [driver.py], which makes one attempt. *)
Definition driver_entry_errors (self : Addr) (ok : nat -> nat -> bool)
    (i : nat) (p : Addr) : list ErrLine :=
  if addr_eqb p self then []
  else if ok i 1%nat then [] else [ErrConnectOnce p].

(** What the entries of a peer list account for together, in the order of
    the list; [i] is the position of the first one. *)
Fixpoint over_entries {A : Type} (f : nat -> Addr -> list A) (i : nat)
    (peers : list Addr) : list A :=
  match peers with
  | [] => []
  | p :: rest => f i p ++ over_entries f (S i) rest
  end.

(** The configured peers other than the machine itself. *)
Definition others (self : Addr) (peers : list Addr) : list Addr :=
  filter (fun p => negb (addr_eqb p self)) peers.

(* ================================================================== *)
(** ** Basic facts                                                    *)
(* ================================================================== *)

Lemma str_eqb_eq (a b : str) : str_eqb a b = true <-> a = b.
Proof.
  revert b; induction a as [|x a IH]; intros [|y b]; simpl; split;
    try congruence; intro H.
  - apply andb_true_iff in H as [Hx Hab].
    apply Z.eqb_eq in Hx. apply IH in Hab. congruence.
  - injection H as -> ->. rewrite Z.eqb_refl. simpl. now apply IH.
Qed.

Lemma addr_eqb_eq (p q : Addr) : addr_eqb p q = true <-> p = q.
Proof.
  destruct p as [h1 p1], q as [h2 p2]; unfold addr_eqb; simpl.
  rewrite andb_true_iff, str_eqb_eq, Z.eqb_eq. split.
  - intros [-> ->]; reflexivity.
  - intros H; injection H; auto.
Qed.

Lemma addr_eqb_refl (p : Addr) : addr_eqb p p = true.
Proof. now apply addr_eqb_eq. Qed.

Lemma addr_eqb_neq (p q : Addr) : addr_eqb p q = false <-> p <> q.
Proof.
  rewrite <- addr_eqb_eq. destruct (addr_eqb p q); split; congruence.
Qed.

(** *** The clock *)

Lemma receive_all_app (vs ws : list Z) (m : Machine) :
  receive_all (vs ++ ws) m = receive_all ws (receive_all vs m).
Proof. unfold receive_all. apply fold_left_app. Qed.

Lemma receive_all_ge (vs : list Z) (m : Machine) :
  logical_clock m <= logical_clock (receive_all vs m).
Proof.
  revert m; induction vs as [|v vs IH]; intro m; simpl; [lia|].
  specialize (IH (clock_receive v m)). simpl in IH.
  unfold receive_all in *. simpl. lia.
Qed.

(** C1. [receive] stores [max(c, v) + 1] for every clock value [c] and every
    received value [v], as a total function that changes no other part of
    the machine; over any sequence of receives the clock never goes down, and
    each call leaves it strictly above both its previous value and the value
    received. *)
Theorem clock_receive_lamport (m : Machine) (vs : list Z) (v : Z) :
  logical_clock (clock_receive v m) = Z.max (logical_clock m) v + 1
  /\ same_but_clock m (clock_receive v m)
  /\ logical_clock m <= logical_clock (receive_all vs m)
  /\ logical_clock (receive_all vs m) < logical_clock (receive_all (vs ++ [v]) m)
  /\ v < logical_clock (receive_all (vs ++ [v]) m).
Proof.
  split; [reflexivity|].
  split; [unfold same_but_clock; simpl; repeat split|].
  split; [apply receive_all_ge|].
  rewrite receive_all_app. simpl.
  split; lia.
Qed.

(** *** The wire codec *)

Lemma encode_utf8_plain (s : str) : Forall plain s -> encode_utf8 s = Some s.
Proof.
  induction 1 as [|c s Hc _ IH]; simpl; [reflexivity|].
  rewrite IH. unfold encode_cp, plain in *.
  destruct (c <? 0) eqn:E0; [apply Z.ltb_lt in E0; lia|].
  destruct (c <? 128) eqn:E1; [reflexivity|].
  apply Z.ltb_ge in E1; lia.
Qed.

Lemma decode_utf8_plain (s : bytes) : Forall plain s -> decode_utf8 s = Some s.
Proof.
  induction 1 as [|c s Hc _ IH]; simpl; [reflexivity|].
  unfold plain in Hc.
  replace ((0 <=? c) && (c <? 128)) with true.
  - rewrite IH. reflexivity.
  - symmetry. apply andb_true_iff. split; [apply Z.leb_le | apply Z.ltb_lt]; lia.
Qed.

Lemma chars_of_uint_digit (u : uint) :
  Forall (fun c => is_digit c = true) (chars_of_uint u).
Proof. induction u; simpl; constructor; auto. Qed.

Lemma is_digit_range (c : Z) : is_digit c = true <-> 48 <= c <= 57.
Proof. unfold is_digit. rewrite andb_true_iff, !Z.leb_le. tauto. Qed.

Lemma str_of_int_numeric (n : Z) : Forall numeric (str_of_int n).
Proof.
  unfold str_of_int.
  assert (H : forall u, Forall numeric (chars_of_uint u)).
  { intro u. eapply Forall_impl; [|apply chars_of_uint_digit].
    intros c Hc. apply is_digit_range in Hc. now right. }
  destruct (Z.to_int n); [apply H|].
  constructor; [now left | apply H].
Qed.

Lemma numeric_plain (c : Z) : numeric c -> plain c.
Proof. unfold numeric, plain. lia. Qed.

Lemma numeric_not_colon (c : Z) : numeric c -> (c =? colon) = false.
Proof. unfold numeric, colon. intro H. apply Z.eqb_neq. lia. Qed.

Lemma format_msg_plain (c id : Z) : Forall plain (format_msg c id).
Proof.
  unfold format_msg. apply Forall_app. split.
  - eapply Forall_impl; [apply numeric_plain | apply str_of_int_numeric].
  - constructor; [unfold plain, colon; lia|].
    eapply Forall_impl; [apply numeric_plain | apply str_of_int_numeric].
Qed.

Lemma encode_format_msg (c id : Z) :
  encode_utf8 (format_msg c id) = Some (format_msg c id).
Proof. apply encode_utf8_plain, format_msg_plain. Qed.

Lemma skip_visible_head (p : Z -> bool) (c : Z) (s : str) :
  p c = false -> skip p (c :: s) = c :: s.
Proof. intro H. simpl. now rewrite H. Qed.

Lemma strip_visible (s : str) : Forall visible s -> strip s = s.
Proof.
  intro H. unfold strip.
  assert (E : forall t, Forall visible t -> skip isspace t = t).
  { intros [|c t] Ht; [reflexivity|].
    apply skip_visible_head. now inversion Ht. }
  rewrite (E s H), E; [apply rev_involutive|].
  apply Forall_rev, H.
Qed.

Lemma numeric_visible (c : Z) : numeric c -> visible c.
Proof.
  unfold numeric, visible, isspace. intro H.
  repeat (apply orb_false_iff; split);
    try (apply andb_false_iff;
         first [ left; apply Z.leb_gt; lia | right; apply Z.leb_gt; lia ]);
    try (apply Z.eqb_neq; lia).
Qed.

Lemma format_msg_visible (c id : Z) : Forall visible (format_msg c id).
Proof.
  unfold format_msg. apply Forall_app. split.
  - eapply Forall_impl; [apply numeric_visible | apply str_of_int_numeric].
  - constructor; [reflexivity|].
    eapply Forall_impl; [apply numeric_visible | apply str_of_int_numeric].
Qed.

Lemma split_nonempty (sep : Z) (s : str) : split sep s <> [].
Proof.
  destruct s as [|c s]; simpl; [discriminate|].
  destruct (c =? sep); [discriminate|].
  destruct (split sep s); discriminate.
Qed.

Lemma split_first_field (a b : str) :
  Forall (fun c => (c =? colon) = false) a ->
  exists fields, split colon (a ++ colon :: b) = a :: fields.
Proof.
  induction 1 as [|c a Hc _ [fields IH]]; simpl.
  - eexists. reflexivity.
  - rewrite Hc, IH. eexists. reflexivity.
Qed.

Lemma scan_digits (u : uint) (prev : Z) :
  (prev =? underscore) = false ->
  scan (chars_of_uint u) prev = Some (chars_of_uint u, []).
Proof.
  revert prev; induction u; intros prev Hp; simpl;
    try (rewrite IHu by reflexivity; reflexivity).
  now rewrite Hp.
Qed.

Lemma uint_of_chars (u : uint) : uint_of_digits (chars_of_uint u) = u.
Proof.
  unfold uint_of_digits. induction u; simpl; try reflexivity;
    rewrite IHu; reflexivity.
Qed.

Lemma is_ascii_plain (s : str) : Forall plain s -> is_ascii_str s = true.
Proof.
  intro H. apply forallb_forall. intros c Hc.
  rewrite Forall_forall in H. apply H in Hc. apply Z.ltb_lt. unfold plain in Hc. lia.
Qed.

Lemma py_int_digits (td : Z -> option Z) (u : uint) :
  u <> Nil ->
  py_int td (chars_of_uint u) = Some (Z.of_uint u)
  /\ py_int td (45 :: chars_of_uint u) = Some (- Z.of_uint u).
Proof.
  intro Hu. 
  assert (Ha : is_ascii_str (chars_of_uint u) = true).
  { apply is_ascii_plain. eapply Forall_impl; [|apply chars_of_uint_digit].
    intros c Hc. apply is_digit_range in Hc. unfold plain. lia. }
  unfold py_int. simpl is_ascii_str. rewrite Ha.
  pose proof (scan_digits u 0 eq_refl) as Hs.
  pose proof (uint_of_chars u) as Hv.
  destruct u; try congruence; simpl chars_of_uint in *; simpl skip;
    cbv iota; rewrite Hs; rewrite Hv; split; reflexivity.
Qed.

Lemma py_int_str_of_int (td : Z -> option Z) (n : Z) :
  py_int td (str_of_int n) = Some n.
Proof.
  rewrite <- (DecimalZ.of_to n) at 2.
  unfold str_of_int.
  assert (Hn : match Z.to_int n with Pos u | Neg u => u <> Nil end).
  { destruct n; simpl; [discriminate | apply Unsigned.to_uint_nonnil ..]. }
  destruct (Z.to_int n) as [u|u]; simpl Z.of_int;
    now apply py_int_digits.
Qed.

Lemma format_msg_nonempty (c id : Z) : format_msg c id <> [].
Proof. unfold format_msg. destruct (str_of_int c); discriminate. Qed.

Lemma parse_format_msg (td : Z -> option Z) (c id : Z) :
  parse_record td (format_msg c id) = Some c.
Proof.
  unfold parse_record.
  rewrite decode_utf8_plain by apply format_msg_plain.
  rewrite strip_visible by apply format_msg_visible.
  destruct (split_first_field (str_of_int c) (str_of_int id)) as [fields E].
  { eapply Forall_impl; [apply numeric_not_colon | apply str_of_int_numeric]. }
  unfold format_msg. rewrite E. apply py_int_str_of_int.
Qed.

(** *** Sending *)

Lemma send_message_unfold (ok : Sock -> bool) (sock : Sock) (m : Machine) :
  send_message ok sock m =
  let m' := set_wire (wire m ++
              [ {| sa_sock := sock;
                   sa_data := format_msg (logical_clock m) (machine_id m);
                   sa_ok := ok sock |} ]) m in
  if ok sock then m' else eprint ErrSending m'.
Proof.
  unfold send_message. rewrite encode_format_msg. reflexivity.
Qed.

Lemma send_message_frame (ok : Sock -> bool) (sock : Sock) (m : Machine) :
  let m' := send_message ok sock m in
  fixed_part m' = fixed_part m /\ logical_clock m' = logical_clock m
  /\ msg_queue m' = msg_queue m /\ log_file m' = log_file m
  /\ sleeps m' = sleeps m.
Proof.
  rewrite send_message_unfold. destruct (ok sock); simpl; repeat split.
Qed.

(** The failure lines a list of [sendall] calls leaves on [stderr]. *)
Lemma send_message_io (ok : Sock -> bool) (sock : Sock) (m : Machine) :
  let m' := send_message ok sock m in
  wire m' = wire m ++ [ {| sa_sock := sock;
                           sa_data := format_msg (logical_clock m) (machine_id m);
                           sa_ok := ok sock |} ]
  /\ stderr m' = stderr m ++ (if ok sock then [] else [ErrSending]).
Proof.
  rewrite send_message_unfold. destruct (ok sock); simpl; split;
    try reflexivity. now rewrite app_nil_r.
Qed.

Lemma send_all_frame (ok : Sock -> bool) (socks : list Sock) (m : Machine) :
  let m' := fold_left (fun m s => send_message ok s m) socks m in
  fixed_part m' = fixed_part m /\ logical_clock m' = logical_clock m
  /\ msg_queue m' = msg_queue m /\ log_file m' = log_file m
  /\ sleeps m' = sleeps m.
Proof.
  revert m; induction socks as [|s socks IH]; intro m; simpl.
  - repeat split.
  - destruct (IH (send_message ok s m)) as (H1 & H2 & H3 & H4 & H5).
    destruct (send_message_frame ok s m) as (F1 & F2 & F3 & F4 & F5).
    simpl in *. repeat split; congruence.
Qed.

Lemma send_all_io (ok : Sock -> bool) (socks : list Sock) (m : Machine) :
  let m' := fold_left (fun m s => send_message ok s m) socks m in
  wire m' = wire m ++
            map (fun s => {| sa_sock := s;
                             sa_data := format_msg (logical_clock m) (machine_id m);
                             sa_ok := ok s |}) socks
  /\ stderr m' = stderr m ++
                 map (fun _ => ErrSending) (filter (fun s => negb (ok s)) socks).
Proof.
  revert m; induction socks as [|s socks IH]; intro m; simpl.
  - now rewrite !app_nil_r.
  - destruct (IH (send_message ok s m)) as [Hw He].
    destruct (send_message_io ok s m) as [Hw1 He1].
    destruct (send_message_frame ok s m) as (F1 & F2 & _).
    assert (Hid : machine_id (send_message ok s m) = machine_id m).
    { unfold fixed_part in F1. simpl in F1. congruence. }
    simpl in *. rewrite Hw, He, Hw1, He1, F2, Hid, <- !app_assoc.
    split; [reflexivity|]. destruct (ok s); reflexivity.
Qed.

(** *** One iteration *)

(** The sleep at the end of an iteration touches [sleeps] only. *)
Lemma tick_sleep (e : TickEnv) (m : Machine) :
  let a := tick_action e m in
  let m' := tick e m in
  fixed_part m' = fixed_part a /\ logical_clock m' = logical_clock a
  /\ msg_queue m' = msg_queue a /\ log_file m' = log_file a
  /\ wire m' = wire a /\ stderr m' = stderr a.
Proof.
  unfold tick. simpl. destruct (Qltb _ _); simpl; repeat split.
Qed.

Lemma receive_branch (e : TickEnv) (m : Machine) (v : Z) (q : list Z) :
  queue_at_check e m = v :: q ->
  tick_action e m =
  (let m := set_msg_queue (q ++ arrived_before_get e) m in
   let m := clock_receive v m in
   let m := put_all (arrived_before_qsize e) m in
   log_event (t_log e) (lit "RECEIVE")
     (Some (Z.of_nat (List.length (msg_queue m)))) None m).
Proof.
  unfold queue_at_check, tick_action. intro H. simpl. rewrite H. simpl.
  reflexivity.
Qed.

Lemma receive_tick (e : TickEnv) (m : Machine) (v : Z) (q : list Z) :
  queue_at_check e m = v :: q ->
  let m' := tick e m in
  msg_queue m' = q ++ arrived_before_get e ++ arrived_before_qsize e
  /\ logical_clock m' = Z.max (logical_clock m) v + 1
  /\ log_file m' =
       log_file m ++
       [log_line (t_log e) "RECEIVE" (logical_clock m')
          (Some (Z.of_nat (List.length (msg_queue m'))))]
  /\ wire m' = wire m
  /\ stderr m' = stderr m
  /\ fixed_part m' = fixed_part m.
Proof.
  intros H m'.
  destruct (tick_sleep e m) as (F & C & Q & L & W & E).
  fold m' in F, C, Q, L, W, E.
  rewrite F, C, Q, L, W, E, (receive_branch e m v q H). simpl.
  rewrite <- app_assoc. repeat split.
Qed.

Lemma put_all_nil (m : Machine) : put_all [] m = m.
Proof. destruct m. unfold put_all. simpl. now rewrite app_nil_r. Qed.

Lemma random_branch (e : TickEnv) (m : Machine) :
  queue_at_check e m = [] -> tick_action e m = random_event e m.
Proof.
  unfold queue_at_check, tick_action. intro H.
  apply app_eq_nil in H as [Hq Ha]. rewrite Ha, put_all_nil, Hq.
  reflexivity.
Qed.

Lemma values_length (d : list (Addr * Sock)) :
  List.length (values d) = List.length d.
Proof. apply length_map. Qed.

(** A random event is: advance the clock, send to the targets, log. *)
Lemma random_event_eq (e : TickEnv) (m : Machine) :
  random_event e m =
  log_event (t_log e) (lit (event_kind e)) None None
    (fold_left (fun m s => send_message (send_ok e) s m) (targets e m)
       (clock_advance m)).
Proof.
  unfold random_event, event_kind, targets.
  change (peer_sockets (clock_advance m)) with (peer_sockets m).
  destruct (randint_1_10 e =? 1).
  { destruct (peer_sockets m) as [|p d] eqn:E.
    { simpl. now rewrite nth_error_nil. }
    cbv zeta.
    destruct (nth_error _ _); reflexivity. }
  destruct (randint_1_10 e =? 2).
  { destruct (peer_sockets m) as [|[a s1] [|[b s2] d]];
      [reflexivity | reflexivity |].
    cbv zeta. cbn [values map snd List.length Nat.leb].
    rewrite Nat.mod_small by lia. reflexivity. }
  destruct (randint_1_10 e =? 3); reflexivity.
Qed.

Lemma random_event_frame (e : TickEnv) (m : Machine) :
  let m' := random_event e m in
  fixed_part m' = fixed_part m
  /\ logical_clock m' = logical_clock m + 1
  /\ msg_queue m' = msg_queue m
  /\ sleeps m' = sleeps m
  /\ log_file m' =
       log_file m ++ [log_line (t_log e) (event_kind e) (logical_clock m + 1) None].
Proof.
  rewrite random_event_eq.
  destruct (send_all_frame (send_ok e) (targets e m) (clock_advance m))
    as (F & C & Q & L & S).
  simpl in *. unfold log_line. rewrite C, L. repeat split; assumption.
Qed.

Lemma random_event_io (e : TickEnv) (m : Machine) :
  let m' := random_event e m in
  wire m' = wire m ++
            map (attempt e (logical_clock m + 1) (machine_id m)) (targets e m)
  /\ stderr m' = stderr m ++
       map (fun _ => ErrSending)
         (filter (fun s => negb (send_ok e s)) (targets e m)).
Proof.
  rewrite random_event_eq.
  destruct (send_all_io (send_ok e) (targets e m) (clock_advance m)) as [W E].
  simpl in *. split; assumption.
Qed.

Lemma tick_action_cases (e : TickEnv) (m : Machine) :
  (exists v q, queue_at_check e m = v :: q)
  \/ queue_at_check e m = [].
Proof. destruct (queue_at_check e m) as [|v q]; eauto. Qed.

Lemma tick_fixed (e : TickEnv) (m : Machine) :
  fixed_part (tick e m) = fixed_part m.
Proof.
  destruct (tick_action_cases e m) as [(v & q & H) | H].
  - now apply (receive_tick e m v q).
  - destruct (tick_sleep e m) as (F & _). simpl in F. rewrite F.
    rewrite (random_branch e m H). apply random_event_frame.
Qed.

(** *** The dict of peer sockets *)

Lemma dict_set_key (k : Addr) (s : Sock) (d : list (Addr * Sock)) :
  In k (map fst (dict_set k s d)).
Proof.
  induction d as [|[k0 v] d IH]; simpl; [now left|].
  destruct (addr_eqb k0 k) eqn:E; simpl.
  - left. now apply addr_eqb_eq.
  - now right.
Qed.

Lemma dict_set_keeps (k k' : Addr) (s : Sock) (d : list (Addr * Sock)) :
  In k' (map fst d) -> In k' (map fst (dict_set k s d)).
Proof.
  induction d as [|[k0 v] d IH]; simpl; [tauto|].
  destruct (addr_eqb k0 k); simpl; tauto.
Qed.

Lemma dict_set_keys (k k' : Addr) (s : Sock) (d : list (Addr * Sock)) :
  In k' (map fst (dict_set k s d)) -> k' = k \/ In k' (map fst d).
Proof.
  induction d as [|[k0 v] d IH]; simpl.
  - intros [H|[]]; auto.
  - destruct (addr_eqb k0 k); simpl; intros [H|H]; auto.
    apply IH in H. tauto.
Qed.

Lemma dict_set_values (k : Addr) (s x : Sock) (d : list (Addr * Sock)) :
  In x (values (dict_set k s d)) -> x = s \/ In x (values d).
Proof.
  induction d as [|[k0 v] d IH]; simpl.
  - intros [H|[]]; auto.
  - destruct (addr_eqb k0 k); simpl; intros [H|H]; auto.
    apply IH in H. tauto.
Qed.

Lemma dict_set_NoDup (k : Addr) (s : Sock) (d : list (Addr * Sock)) :
  NoDup (values d) -> ~ In s (values d) -> NoDup (values (dict_set k s d)).
Proof.
  induction d as [|[k0 v] d IH]; simpl; intros Hnd Hs.
  - constructor; [tauto | constructor].
  - inversion Hnd as [|? ? Hv Hd]; subst.
    destruct (addr_eqb k0 k); simpl; constructor; try tauto.
    intro H. apply dict_set_values in H as [->|H]; tauto.
Qed.

(** *** The retry loop for one peer *)

Lemma connect_attempts_spec (ok : nat -> bool) (p : Addr)
    (attempt remaining : nat) (m : Machine) :
  let m' := connect_attempts ok p attempt remaining m in
  apart_from_connecting m' = apart_from_connecting m
  /\ stderr m' = stderr m ++
       map (fun k => ErrConnect (machine_id m) k max_retries p)
         (failed ok attempt remaining)
  /\ sleeps m' = sleeps m ++
       map (fun _ => 1%Q)
         (filter (fun k => (k <? max_retries)%nat) (failed ok attempt remaining))
  /\ peer_sockets m' =
       match first_success ok attempt remaining with
       | Some k => dict_set p (next_sock m + (k - attempt))%nat (peer_sockets m)
       | None => peer_sockets m
       end
  /\ next_sock m' =
       (next_sock m + List.length (failed ok attempt remaining)
        + match first_success ok attempt remaining with
          | Some _ => 1
          | None => 0
          end)%nat.
Proof.
  revert attempt m; induction remaining as [|r IH]; intros attempt m.
  - simpl. rewrite !app_nil_r, !Nat.add_0_r. repeat split.
  - simpl. destruct (ok attempt) eqn:E.
    + simpl. rewrite !app_nil_r, Nat.sub_diag, !Nat.add_0_r.
      repeat split. symmetry. apply Nat.add_1_r.
    + assert (Hfs : forall k, first_success ok (S attempt) r = Some k ->
                              (attempt < k)%nat).
      { clear. revert attempt. induction r as [|r IH]; intros a k; simpl;
          [discriminate|].
        destruct (ok (S a)); [intros [= <-]; lia|].
        intro H. apply IH in H. lia. }
      cbn [filter].
      destruct (attempt <? max_retries)%nat;
        match goal with |- context [connect_attempts ok p (S attempt) r ?x] =>
          destruct (IH (S attempt) x) as (A & B & C & D & F) end;
        rewrite A, B, C, D, F; clear A B C D F; simpl;
        rewrite <- ?app_assoc; simpl;
        (split; [reflexivity|]); (split; [reflexivity|]);
        (split; [reflexivity|]);
        (split; [|lia]);
        (destruct (first_success ok (S attempt) r) as [k|] eqn:K;
          [|reflexivity]);
        specialize (Hfs k eq_refl); f_equal; lia.
Qed.

Lemma failed_bound (ok : nat -> bool) (attempt remaining : nat) :
  (List.length (failed ok attempt remaining)
   + match first_success ok attempt remaining with Some _ => 1 | None => 0 end
   <= remaining)%nat
  /\ exists n, failed ok attempt remaining = seq attempt n
       /\ match first_success ok attempt remaining with
          | Some k => k = (attempt + n)%nat /\ ok k = true
          | None => n = remaining
          end.
Proof.
  revert attempt; induction remaining as [|r IH]; intro a; simpl.
  - split; [lia|]. exists 0%nat. auto.
  - destruct (ok a) eqn:E; simpl.
    + split; [lia|]. exists 0%nat. rewrite Nat.add_0_r. auto.
    + destruct (IH (S a)) as (Hb & n & Hf & Hs). split; [lia|].
      exists (S n). rewrite Hf. split; [reflexivity|].
      destruct (first_success ok (S a) r); [|lia].
      destruct Hs as [-> Hk]. split; [lia|].
      now replace (a + S n)%nat with (S a + n)%nat by lia.
Qed.

Lemma first_success_three (ok : nat -> bool) :
  ok 1%nat = false -> ok 2%nat = false -> ok 3%nat = true ->
  first_success ok 1 max_retries = Some 3%nat
  /\ failed ok 1 max_retries = [1; 2]%nat.
Proof. intros H1 H2 H3. simpl. now rewrite H1, H2, H3. Qed.

Lemma first_success_never (ok : nat -> bool) :
  (forall k, ok k = false) ->
  first_success ok 1 max_retries = None
  /\ failed ok 1 max_retries = [1; 2; 3; 4; 5]%nat.
Proof. intro H. simpl. now rewrite !H. Qed.

Lemma apart_fields (m m' : Machine) :
  apart_from_connecting m' = apart_from_connecting m ->
  machine_id m' = machine_id m
  /\ listen_host m' = listen_host m
  /\ listen_port m' = listen_port m
  /\ peer_info m' = peer_info m
  /\ logical_clock m' = logical_clock m
  /\ msg_queue m' = msg_queue m
  /\ log_file m' = log_file m
  /\ log_closed m' = log_closed m
  /\ server_socket m' = server_socket m
  /\ closed m' = closed m
  /\ wire m' = wire m
  /\ ticks_per_second m' = ticks_per_second m
  /\ cycle_time m' = cycle_time m
  /\ stdout m' = stdout m.
Proof.
  intro H.
  repeat split.
  - exact (f_equal (fun t => let '(x, _, _, _, _, _, _, _, _, _, _, _, _, _) := t in x) H).
  - exact (f_equal (fun t => let '(_, x, _, _, _, _, _, _, _, _, _, _, _, _) := t in x) H).
  - exact (f_equal (fun t => let '(_, _, x, _, _, _, _, _, _, _, _, _, _, _) := t in x) H).
  - exact (f_equal (fun t => let '(_, _, _, x, _, _, _, _, _, _, _, _, _, _) := t in x) H).
  - exact (f_equal (fun t => let '(_, _, _, _, x, _, _, _, _, _, _, _, _, _) := t in x) H).
  - exact (f_equal (fun t => let '(_, _, _, _, _, x, _, _, _, _, _, _, _, _) := t in x) H).
  - exact (f_equal (fun t => let '(_, _, _, _, _, _, _, _, x, _, _, _, _, _) := t in x) H).
  - exact (f_equal (fun t => let '(_, _, _, _, _, _, _, _, _, x, _, _, _, _) := t in x) H).
  - exact (f_equal (fun t => let '(_, _, _, _, _, _, _, _, _, _, x, _, _, _) := t in x) H).
  - exact (f_equal (fun t => let '(_, _, _, _, _, _, _, _, _, _, _, x, _, _) := t in x) H).
  - exact (f_equal (fun t => let '(_, _, _, _, _, _, _, _, _, _, _, _, x, _) := t in x) H).
  - exact (f_equal (fun t => let '(_, _, _, _, _, _, x, _, _, _, _, _, _, _) := t in x) H).
  - exact (f_equal (fun t => let '(_, _, _, _, _, _, _, x, _, _, _, _, _, _) := t in x) H).
  - exact (f_equal (fun t => let '(_, _, _, _, _, _, _, _, _, _, _, _, _, x) := t in x) H).
Qed.

Lemma fixed_fields (m m' : Machine) :
  fixed_part m' = fixed_part m ->
  machine_id m' = machine_id m /\ cycle_time m' = cycle_time m
  /\ server_socket m' = server_socket m /\ peer_sockets m' = peer_sockets m
  /\ next_sock m' = next_sock m /\ log_closed m' = log_closed m
  /\ closed m' = closed m /\ stdout m' = stdout m.
Proof.
  intro H.
  repeat split.
  - exact (f_equal (fun t => let '(x, _, _, _, _, _, _, _, _, _, _, _) := t in x) H).
  - exact (f_equal (fun t => let '(_, _, _, _, _, x, _, _, _, _, _, _) := t in x) H).
  - exact (f_equal (fun t => let '(_, _, _, _, _, _, x, _, _, _, _, _) := t in x) H).
  - exact (f_equal (fun t => let '(_, _, _, _, _, _, _, x, _, _, _, _) := t in x) H).
  - exact (f_equal (fun t => let '(_, _, _, _, _, _, _, _, x, _, _, _) := t in x) H).
  - exact (f_equal (fun t => let '(_, _, _, _, _, _, _, _, _, x, _, _) := t in x) H).
  - exact (f_equal (fun t => let '(_, _, _, _, _, _, _, _, _, _, x, _) := t in x) H).
  - exact (f_equal (fun t => let '(_, _, _, _, _, _, _, _, _, _, _, x) := t in x) H).
Qed.

Lemma connect_attempts_sockets (ok : nat -> bool) (p : Addr) (m : Machine) :
  sockets_distinct m ->
  sockets_distinct (connect_attempts ok p 1 max_retries m).
Proof.
  intros [Hnd Hlt].
  destruct (connect_attempts_spec ok p 1 max_retries m) as (A & _ & _ & D & F).
  assert (Hs : server_socket (connect_attempts ok p 1 max_retries m)
               = server_socket m).
  { apply apart_fields in A. tauto. }
  unfold sockets_distinct. cbv zeta in D, F. rewrite Hs, D, F.
  inversion Hnd as [|? ? Hsrv Hv]; subst.
  inversion Hlt as [|? ? Hs0 Hv0]; subst.
  rewrite Forall_forall in Hv0.
  pose proof (failed_bound ok 1 max_retries) as (_ & n & Hf & Hk).
  rewrite Hf, length_seq.
  destruct (first_success ok 1 max_retries) as [k|].
  - destruct Hk as [-> _].
    set (s := (next_sock m + (1 + n - 1))%nat).
    assert (Hfresh : ~ In s (values (peer_sockets m))).
    { intro H. apply Hv0 in H. unfold s in H. lia. }
    split.
    + constructor.
      * intro H. apply dict_set_values in H as [H|H];
          [unfold s in H; lia | tauto].
      * apply dict_set_NoDup; assumption.
    + constructor; [lia|]. apply Forall_forall. intros x Hx.
      apply dict_set_values in Hx as [->|Hx].
      * unfold s. lia.
      * apply Hv0 in Hx. lia.
  - split; [assumption|].
    constructor; [lia|]. apply Forall_forall. intros x Hx.
    apply Hv0 in Hx. lia.
Qed.

(** *** The loop over the configured peers *)

(** One entry of [peer_info]: skipped when it is the machine's own address,
    otherwise the retry loop. *)
Lemma connect_each_step (ok : nat -> nat -> bool) (i : nat) (p : Addr)
    (rest : list Addr) (m : Machine) :
  exists m1,
    connect_each ok i (p :: rest) m = connect_each ok (S i) rest m1
    /\ apart_from_connecting m1 = apart_from_connecting m
    /\ (sockets_distinct m -> sockets_distinct m1)
    /\ (forall q, In q (connected m) -> In q (connected m1))
    /\ (p <> (listen_host m, listen_port m) ->
        first_success (ok i) 1 max_retries <> None -> In p (connected m1))
    /\ (p = (listen_host m, listen_port m)
        \/ first_success (ok i) 1 max_retries = None ->
        peer_sockets m1 = peer_sockets m)
    /\ (forall q, In q (connected m1) -> q = p \/ In q (connected m)).
Proof.
  cbn [connect_each]. destruct (addr_eqb p (listen_host m, listen_port m)) eqn:E.
  - exists m. apply addr_eqb_eq in E.
    split; [reflexivity|]. split; [reflexivity|]. split; [auto|].
    split; [auto|]. split; [intros H; contradiction|]. auto.
  - exists (connect_attempts (ok i) p 1 max_retries m).
    apply addr_eqb_neq in E.
    destruct (connect_attempts_spec (ok i) p 1 max_retries m)
      as (A & _ & _ & D & _).
    cbv zeta in A, D. unfold connected. rewrite D.
    split; [reflexivity|]. split; [exact A|].
    split; [apply connect_attempts_sockets|].
    destruct (first_success (ok i) 1 max_retries) as [k|].
    + split; [intros q; apply dict_set_keeps|].
      split; [intros _ _; apply dict_set_key|].
      split; [intros [H|H]; [contradiction|discriminate]|].
      intros q. apply dict_set_keys.
    + split; [auto|]. split; [intros _ H; now elim H|]. auto.
Qed.

Lemma connect_each_frame (ok : nat -> nat -> bool) (i : nat) (peers : list Addr)
    (m : Machine) :
  let m' := connect_each ok i peers m in
  apart_from_connecting m' = apart_from_connecting m
  /\ (sockets_distinct m -> sockets_distinct m')
  /\ (forall q, In q (connected m) -> In q (connected m')).
Proof.
  revert i m; induction peers as [|p rest IH]; intros i m.
  - simpl. auto.
  - destruct (connect_each_step ok i p rest m) as (m1 & E & A & D & K & _).
    cbv zeta. rewrite E.
    destruct (IH (S i) m1) as (A' & D' & K'). cbv zeta in A', D', K'.
    split; [rewrite A'; exact A|]. split; auto.
Qed.

Lemma connect_each_connects (ok : nat -> nat -> bool) (i j : nat)
    (peers : list Addr) (p : Addr) (m : Machine) :
  nth_error peers j = Some p ->
  p <> (listen_host m, listen_port m) ->
  first_success (ok (i + j)%nat) 1 max_retries <> None ->
  In p (connected (connect_each ok i peers m)).
Proof.
  revert i j m; induction peers as [|p0 rest IH]; intros i j m Hj Hp Hs.
  - destruct j; discriminate.
  - destruct (connect_each_step ok i p0 rest m) as (m1 & E & A & _ & _ & C & _).
    rewrite E. destruct j as [|j]; simpl in Hj.
    + injection Hj as ->. rewrite Nat.add_0_r in Hs.
      apply connect_each_frame. auto.
    + apply (IH (S i) j m1 Hj).
      * apply apart_fields in A. destruct A as (_ & -> & -> & _). exact Hp.
      * now rewrite Nat.add_succ_comm.
Qed.

Lemma connect_each_absent (ok : nat -> nat -> bool) (i : nat)
    (peers : list Addr) (p : Addr) (m : Machine) :
  (forall j, nth_error peers j = Some p ->
             first_success (ok (i + j)%nat) 1 max_retries = None) ->
  ~ In p (connected m) ->
  ~ In p (connected (connect_each ok i peers m)).
Proof.
  revert i m; induction peers as [|p0 rest IH]; intros i m Hn Hp.
  - exact Hp.
  - destruct (connect_each_step ok i p0 rest m)
      as (m1 & E & A & _ & _ & _ & C & K).
    rewrite E. apply IH.
    + intros j Hj. rewrite Nat.add_succ_comm. now apply Hn.
    + intro H. destruct (K _ H) as [<-|H']; [|tauto].
      specialize (Hn 0%nat eq_refl). rewrite Nat.add_0_r in Hn.
      unfold connected in *. rewrite C in H by auto.
      contradiction.
Qed.

(** *** Construction *)

Lemma init_facts (id : Z) (host : str) (port : Z) (peers : list Addr)
    (ie : InitEnv) :
  let m := init id host port peers ie in
  machine_id m = id /\ listen_host m = host /\ listen_port m = port
  /\ peer_info m = peers
  /\ logical_clock m = 0 /\ msg_queue m = []
  /\ log_file m = [init_line (t_init ie) (randint_1_12 ie)]
  /\ log_closed m = false
  /\ server_socket m = 0%nat /\ closed m = [] /\ wire m = []
  /\ sockets_distinct m.
Proof.
  unfold init, connect_to_peers.
  set (m0 := attributes id host port peers ie).
  change (peer_info m0) with peers.
  destruct (connect_each_frame (connect_ok ie) 0 peers m0) as (A & D & _).
  cbv zeta in A, D.
  assert (D0 : sockets_distinct m0).
  { unfold sockets_distinct, m0. simpl. split.
    - constructor; [tauto | constructor].
    - constructor; [lia | constructor]. }
  specialize (D D0).
  apply apart_fields in A.
  destruct A as (A1 & A2 & A3 & A4 & A5 & A6 & A7 & A8 & A9 & A10 & A11
                 & A12 & _).
  set (m1 := connect_each (connect_ok ie) 0 peers m0) in *.
  cbv zeta. unfold log_event. cbn.
  rewrite A1, A2, A3, A4, A5, A6, A7, A8, A9, A10, A11, A12.
  repeat split; try reflexivity; apply D.
Qed.

(** *** Iterations of the loop *)

Lemma tick_clock (e : TickEnv) (m : Machine) :
  logical_clock m < logical_clock (tick e m)
  /\ (queue_at_check e m = [] ->
      logical_clock (tick e m) = logical_clock m + 1).
Proof.
  destruct (tick_action_cases e m) as [(v & q & H) | H].
  - destruct (receive_tick e m v q H) as (_ & C & _). cbv zeta in C.
    split; [lia | congruence].
  - destruct (tick_sleep e m) as (_ & C & _). cbv zeta in C.
    rewrite C, (random_branch e m H).
    destruct (random_event_frame e m) as (_ & C' & _). cbv zeta in C'.
    split; [lia | intros _; exact C'].
Qed.

(** Every iteration writes exactly one line, of one of the five kinds,
    carrying the clock value the iteration ends with. *)
Lemma tick_log (e : TickEnv) (m : Machine) :
  exists l, log_file (tick e m) = log_file m ++ [l]
            /\ In (ll_event l) tick_kinds
            /\ ll_L l = logical_clock (tick e m).
Proof.
  destruct (tick_action_cases e m) as [(v & q & H) | H].
  - destruct (receive_tick e m v q H) as (_ & _ & L & _). cbv zeta in L.
    eexists. split; [exact L|]. split; [now left | reflexivity].
  - destruct (tick_sleep e m) as (_ & C & _ & L & _). cbv zeta in C, L.
    rewrite C, L, (random_branch e m H).
    destruct (random_event_frame e m) as (_ & C' & _ & _ & L').
    cbv zeta in C', L'. rewrite C', L'.
    eexists. split; [reflexivity|]. split; [|reflexivity].
    unfold log_line, event_kind. cbn [ll_event].
    destruct (randint_1_10 e =? 1); [right; now left|].
    destruct (randint_1_10 e =? 2); [right; right; now left|].
    destruct (randint_1_10 e =? 3); [right; right; right; now left|].
    right; right; right; right; now left.
Qed.

Lemma ticks_app (envs1 envs2 : list TickEnv) (m : Machine) :
  ticks (envs1 ++ envs2) m = ticks envs2 (ticks envs1 m).
Proof. unfold ticks. apply fold_left_app. Qed.

Lemma ticks_fixed (envs : list TickEnv) (m : Machine) :
  fixed_part (ticks envs m) = fixed_part m.
Proof.
  revert m; induction envs as [|e envs IH]; intro m; [reflexivity|].
  change (ticks (e :: envs) m) with (ticks envs (tick e m)).
  rewrite IH. apply tick_fixed.
Qed.

Lemma ticks_clock (envs : list TickEnv) (m : Machine) :
  logical_clock m <= logical_clock (ticks envs m).
Proof.
  revert m; induction envs as [|e envs IH]; intro m; [simpl; lia|].
  change (ticks (e :: envs) m) with (ticks envs (tick e m)).
  specialize (IH (tick e m)). pose proof (tick_clock e m). lia.
Qed.

Lemma ticks_log (envs : list TickEnv) (m : Machine) :
  exists ls, log_file (ticks envs m) = log_file m ++ ls
             /\ List.length ls = List.length envs
             /\ Forall (fun l => In (ll_event l) tick_kinds) ls.
Proof.
  revert m; induction envs as [|e envs IH]; intro m.
  - exists []. simpl. now rewrite app_nil_r.
  - change (ticks (e :: envs) m) with (ticks envs (tick e m)).
    destruct (IH (tick e m)) as (ls & L & N & K).
    destruct (tick_log e m) as (l & L1 & K1 & _).
    exists (l :: ls). rewrite L, L1, <- app_assoc. simpl.
    split; [reflexivity|]. split; [now rewrite N | now constructor].
Qed.

(** *** The loop guard and shutdown *)

Lemma run_loop_stops (start_time : Q) (run_time : Z)
    (pre post : list TickEnv) (e : TickEnv) (m : Machine) :
  Forall (fun x => running start_time run_time x = true) pre ->
  running start_time run_time e = false ->
  run_loop start_time run_time (pre ++ e :: post) m = Some (ticks pre m).
Proof.
  intros Hpre He. revert m. induction Hpre as [|x pre Hx _ IH]; intro m; simpl.
  - now rewrite He.
  - rewrite Hx. apply IH.
Qed.

Lemma close_all (socks : list Sock) (m : Machine) :
  fold_left (fun m s => close s m) socks m = set_closed (closed m ++ socks) m.
Proof.
  revert m; induction socks as [|s socks IH]; intro m; simpl.
  - rewrite app_nil_r. now destruct m.
  - rewrite IH. unfold close. simpl. now rewrite <- app_assoc.
Qed.

Lemma shutdown_spec (now : Q) (m : Machine) :
  let m' := shutdown now m in
  log_file m' = log_file m ++ [log_line now "SHUTDOWN" (logical_clock m) None]
  /\ log_closed m' = true
  /\ closed m' = closed m ++ server_socket m :: values (peer_sockets m)
  /\ stdout m' = stdout m ++ [machine_id m]
  /\ logical_clock m' = logical_clock m
  /\ peer_sockets m' = peer_sockets m
  /\ server_socket m' = server_socket m
  /\ msg_queue m' = msg_queue m
  /\ wire m' = wire m.
Proof.
  unfold shutdown. cbv zeta. rewrite close_all. simpl.
  rewrite <- app_assoc. repeat split.
Qed.

Lemma tick_kinds_not_shutdown (l : LogLine) :
  In (ll_event l) tick_kinds -> is_shutdown l = false.
Proof.
  unfold is_shutdown, tick_kinds. simpl.
  intros [<-|[<-|[<-|[<-|[<-|[]]]]]]; reflexivity.
Qed.

(** *** The receive worker *)

Lemma receive_messages_spec (td : Z -> option Z) (sock : Sock)
    (reads : list recv_result) (m : Machine) :
  let r := receive_messages td sock reads m in
  snd r = match outcome td reads with
          | StillReading => Blocked
          | _ => Exited
          end
  /\ closed (fst r) = closed m ++ match outcome td reads with
                                   | StillReading => []
                                   | _ => [sock]
                                   end
  /\ stderr (fst r) = stderr m ++ match outcome td reads with
                                   | Aborted => [ErrReceiving]
                                   | _ => []
                                   end
  /\ msg_queue (fst r) = msg_queue m ++ accepted td reads
  /\ apart_from_receiving (fst r) = apart_from_receiving m.
Proof.
  revert m; induction reads as [|[data|] rest IH]; intro m.
  - simpl. rewrite !app_nil_r. repeat split.
  - destruct data as [|b data].
    + simpl. rewrite !app_nil_r. repeat split.
    + unfold outcome. cbn [receive_messages accepted find terminal].
      destruct (parse_record td (b :: data)) as [v|].
      * destruct (IH (put v m)) as (H1 & H2 & H3 & H4 & H5).
        cbv zeta in H1, H2, H3, H4, H5. fold (outcome td rest).
        rewrite H1, H2, H3, H4, H5. simpl. rewrite <- app_assoc.
        repeat split.
      * simpl. rewrite !app_nil_r. repeat split.
  - simpl. rewrite !app_nil_r. repeat split.
Qed.

Lemma outcome_exited (td : Z -> option Z) (reads : list recv_result) :
  outcome td reads <> StillReading <-> existsb (terminal td) reads = true.
Proof.
  unfold outcome. induction reads as [|r rest IH]; simpl.
  - split; [congruence | discriminate].
  - destruct (terminal td r) eqn:T; simpl; [|exact IH].
    split; [reflexivity|]. intros _.
    destruct r as [[|b data]|]; discriminate.
Qed.

(** Two records that arrive in one read are taken for one: the first clock
    value is accepted, the second record is lost. *)
Lemma parse_merged (td : Z -> option Z) (c1 id1 c2 id2 : Z) :
  parse_record td (format_msg c1 id1 ++ format_msg c2 id2) = Some c1.
Proof.
  unfold parse_record.
  rewrite decode_utf8_plain
    by (apply Forall_app; split; apply format_msg_plain).
  rewrite strip_visible
    by (apply Forall_app; split; apply format_msg_visible).
  replace (format_msg c1 id1 ++ format_msg c2 id2)
    with (str_of_int c1 ++ colon :: (str_of_int id1 ++ format_msg c2 id2))
    by (unfold format_msg; now rewrite <- app_assoc).
  destruct (split_first_field (str_of_int c1)
              (str_of_int id1 ++ format_msg c2 id2)) as [fields E].
  { eapply Forall_impl; [apply numeric_not_colon | apply str_of_int_numeric]. }
  rewrite E. apply py_int_str_of_int.
Qed.

(** The decoding on some reads: a record, a record with blanks and a line
    end, digits grouped by an underscore, and reads on which it raises. *)
Example parse_record_examples :
  parse_record (fun _ => None) (lit "17:2") = Some 17
  /\ parse_record (fun _ => None) [32; 49; 55; 32; 58; 50; 10] = Some 17
  /\ parse_record (fun _ => None) (lit "-4:2") = Some (-4)
  /\ parse_record (fun _ => None) (lit "1_7:2") = Some 17
  /\ parse_record (fun _ => None) (lit "17") = Some 17
  /\ parse_record (fun _ => None) (lit ":2") = None
  /\ parse_record (fun _ => None) (lit "x17:2") = None
  /\ parse_record (fun _ => None) (lit "1.5:2") = None
  /\ parse_record (fun _ => None) [255; 58; 50] = None.
Proof. repeat split. Qed.

(** A record cut in two by the transport: ["17:2"] then ["18:2"] read as
    ["17:21"] and ["8:2"] gives the clock values 17 and 8. *)
Example truncated_reads_accepted :
  accepted (fun _ => None) [RecvData (lit "17:21"); RecvData (lit "8:2")]
  = [17; 8].
Proof. reflexivity. Qed.

(** Non-ASCII decimal digits count as digits once the interpreter's table
    knows them: U+0661 U+0667 (Arabic-Indic 1 and 7), sent as UTF-8. *)
Example parse_record_unicode_digits :
  parse_record
    (fun c => if (0x660 <=? c) && (c <=? 0x669) then Some (c - 0x660) else None)
    [0xD9; 0xA1; 0xD9; 0xA7; 58; 50] = Some 17.
Proof. reflexivity. Qed.

Lemma init_connected (id : Z) (host : str) (port : Z) (peers : list Addr)
    (ie : InitEnv) :
  connected (init id host port peers ie)
  = connected (connect_each (connect_ok ie) 0 peers
                 (attributes id host port peers ie)).
Proof. reflexivity. Qed.

Lemma filter_none {A : Type} (f : A -> bool) (l : list A) :
  Forall (fun x => f x = false) l -> filter f l = [].
Proof.
  induction 1 as [|x l Hx _ IH]; simpl; [reflexivity|]. now rewrite Hx.
Qed.

(* ================================================================== *)
(** ** The claims                                                     *)
(* ================================================================== *)

(** C2. The logical clock of a machine starts at 0 and is never negative;
    every iteration of the loop makes it strictly larger, and an iteration
    that finds the queue empty (SEND(1), SEND(2), SEND(3) or INTERNAL) adds
    exactly 1; it never decreases over any continuation of the run; and the
    operations outside the loop body (a receive worker, [shutdown]) leave it
    as it is. *)
Theorem logical_clock_invariant (id : Z) (host : str) (port : Z)
    (peers : list Addr) (ie : InitEnv) (envs more : list TickEnv)
    (e : TickEnv) (td : Z -> option Z) (sock : Sock)
    (reads : list recv_result) (now : Q) :
  let m0 := init id host port peers ie in
  let m := ticks envs m0 in
  logical_clock m0 = 0
  /\ 0 <= logical_clock m
  /\ logical_clock m < logical_clock (tick e m)
  /\ (queue_at_check e m = [] ->
      logical_clock (tick e m) = logical_clock m + 1)
  /\ logical_clock m <= logical_clock (ticks (envs ++ more) m0)
  /\ logical_clock (fst (receive_messages td sock reads m)) = logical_clock m
  /\ logical_clock (shutdown now m) = logical_clock m.
Proof.
  intros m0 m.
  destruct (init_facts id host port peers ie) as (_ & _ & _ & _ & C0 & _).
  fold m0 in C0.
  pose proof (ticks_clock envs m0) as Hge. fold m in Hge.
  destruct (tick_clock e m) as [Hlt Hone].
  split; [exact C0|]. split; [lia|]. split; [exact Hlt|].
  split; [exact Hone|].
  split.
  { rewrite ticks_app. apply ticks_clock. }
  split.
  - destruct (receive_messages_spec td sock reads m) as (_ & _ & _ & _ & A).
    cbv zeta in A.
    exact (f_equal (fun t => let '(_, _, _, _, x, _, _, _, _, _, _, _, _, _, _)
                               := t in x) A).
  - apply shutdown_spec.
Qed.

Lemma logical_clock_invariant_witness :
  queue_at_check (example_tick 1 []) (ticks [example_tick 7 [4]] example_machine)
    = []
  /\ logical_clock (tick (example_tick 1 [])
                      (ticks [example_tick 7 [4]] example_machine)) = 6.
Proof.
  split; [reflexivity|]. unfold example_machine.
  destruct (logical_clock_invariant 1 localhost 5001
              [(localhost, 5001); (localhost, 5002); (localhost, 5003)]
              example_env [example_tick 7 [4]] [] (example_tick 1 [])
              (fun _ => None) 9%nat [] 0%Q) as (_ & _ & _ & H & _).
  rewrite (H eq_refl). reflexivity.
Defined.

(** C3. When the queue check of an iteration finds a record, the iteration
    takes exactly the head of the queue, applies the receive update with its
    value, and writes one RECEIVE line with the updated clock and the depth of
    the queue at that moment; it sends nothing, prints nothing and writes no
    other line, whatever the random draw would have been. *)
Theorem receive_is_prioritized (e : TickEnv) (m : Machine) (v : Z) (q : list Z) :
  queue_at_check e m = v :: q ->
  let m' := tick e m in
  msg_queue m' = q ++ arrived_before_get e ++ arrived_before_qsize e
  /\ logical_clock m' = logical_clock (clock_receive v m)
  /\ log_file m' =
       log_file m ++
       [log_line (t_log e) "RECEIVE" (logical_clock m')
          (Some (Z.of_nat (List.length (msg_queue m'))))]
  /\ wire m' = wire m
  /\ stderr m' = stderr m
  /\ fixed_part m' = fixed_part m.
Proof.
  intros H m'.
  destruct (tick_sleep e m) as (F & C & Q & L & W & E).
  fold m' in F, C, Q, L, W, E.
  rewrite F, C, Q, L, W, E, (receive_branch e m v q H).
  unfold log_event, put_all, clock_receive, log_line. simpl.
  rewrite <- app_assoc.
  split; [reflexivity|]. split; [reflexivity|]. split; [reflexivity|].
  repeat split.
Qed.

Lemma receive_is_prioritized_witness :
  queue_at_check (example_tick 1 [9; 2]) example_machine = [9; 2]
  /\ msg_queue (tick (example_tick 1 [9; 2]) example_machine) = [2]
  /\ logical_clock (tick (example_tick 1 [9; 2]) example_machine) = 10
  /\ wire (tick (example_tick 1 [9; 2]) example_machine) = [].
Proof.
  split; [reflexivity|].
  destruct (receive_is_prioritized (example_tick 1 [9; 2]) example_machine
              9 [2] eq_refl) as (Q & C & _ & W & _).
  rewrite Q, C, W. repeat split.
Defined.

Lemma random_tick (e : TickEnv) (m : Machine) :
  queue_at_check e m = [] ->
  let m' := tick e m in
  let c := logical_clock m + 1 in
  logical_clock m' = c
  /\ log_file m' = log_file m ++ [log_line (t_log e) (event_kind e) c None]
  /\ wire m' = wire m ++ map (attempt e c (machine_id m)) (targets e m)
  /\ stderr m' = stderr m ++
       map (fun _ => ErrSending)
         (filter (fun s => negb (send_ok e s)) (targets e m))
  /\ msg_queue m' = msg_queue m
  /\ fixed_part m' = fixed_part m.
Proof.
  intros H m' c.
  destruct (tick_sleep e m) as (F & C & Q & L & W & E).
  fold m' in F, C, Q, L, W, E.
  rewrite F, C, Q, L, W, E, (random_branch e m H).
  destruct (random_event_frame e m) as (F' & C' & Q' & _ & L').
  destruct (random_event_io e m) as (W' & E').
  cbv zeta in F', C', Q', L', W', E'.
  repeat split; assumption.
Qed.

Lemma targets_second (e : TickEnv) (m : Machine) :
  randint_1_10 e = 2 ->
  targets e m = match values (peer_sockets m) with
                | _ :: second :: _ => [second]
                | [only] => [only]
                | [] => []
                end.
Proof. unfold targets. intros ->. reflexivity. Qed.

Lemma targets_all (e : TickEnv) (m : Machine) :
  randint_1_10 e = 3 -> targets e m = values (peer_sockets m).
Proof. unfold targets. intros ->. reflexivity. Qed.

Lemma reachable_sockets (id : Z) (host : str) (port : Z) (peers : list Addr)
    (ie : InitEnv) (envs : list TickEnv) :
  let m0 := init id host port peers ie in
  let m := ticks envs m0 in
  peer_sockets m = peer_sockets m0 /\ server_socket m = server_socket m0
  /\ closed m = [] /\ NoDup (server_socket m0 :: values (peer_sockets m0)).
Proof.
  intros m0 m.
  destruct (fixed_fields _ _ (ticks_fixed envs m0))
    as (_ & _ & S & P & _ & _ & Cl & _).
  destruct (init_facts id host port peers ie)
    as (_ & _ & _ & _ & _ & _ & _ & _ & _ & C0 & _ & D).
  fold m0 in C0, D. fold m in S, P, Cl.
  rewrite S, P, Cl, C0. repeat split. apply D.
Qed.

(** C7. In an iteration that finds the queue empty and draws 2, the clock
    advances by one; with two or more peer connections the record goes to the
    second one, which is another socket than the first; with exactly one
    connection it goes to that one; with none nothing is sent; and the
    SEND(2) line with the advanced clock is written in all three cases. *)
Theorem second_peer_send (id : Z) (host : str) (port : Z) (peers : list Addr)
    (ie : InitEnv) (envs : list TickEnv) (e : TickEnv) :
  let m := ticks envs (init id host port peers ie) in
  queue_at_check e m = [] ->
  randint_1_10 e = 2 ->
  let m' := tick e m in
  let c := logical_clock m + 1 in
  logical_clock m' = c
  /\ log_file m' = log_file m ++ [log_line (t_log e) "SEND(2)" c None]
  /\ match values (peer_sockets m) with
     | first :: second :: _ =>
       wire m' = wire m ++ [attempt e c (machine_id m) second]
       /\ second <> first
     | [only] => wire m' = wire m ++ [attempt e c (machine_id m) only]
     | [] => wire m' = wire m
     end.
Proof.
  intros m Hq Hr m' c.
  destruct (random_tick e m Hq) as (C & L & W & _).
  fold m' c in C, L, W.
  split; [exact C|].
  split; [rewrite L; unfold event_kind; now rewrite Hr|].
  rewrite W, (targets_second e m Hr).
  destruct (reachable_sockets id host port peers ie envs) as (P & _ & _ & D).
  fold m in P. rewrite <- P in D.
  destruct (values (peer_sockets m)) as [|s1 [|s2 rest]]; simpl.
  - now rewrite app_nil_r.
  - reflexivity.
  - split; [reflexivity|].
    inversion D as [|? ? _ D1]; subst. inversion D1 as [|? ? N _]; subst.
    intros ->. apply N. now left.
Qed.

Lemma second_peer_send_witness :
  queue_at_check (example_tick 2 []) (ticks [] example_machine) = []
  /\ randint_1_10 (example_tick 2 []) = 2
  /\ wire (tick (example_tick 2 []) (ticks [] example_machine))
     = [ {| sa_sock := 6%nat; sa_data := lit "1:1"; sa_ok := false |} ].
Proof.
  split; [reflexivity|]. split; [reflexivity|].
  destruct (second_peer_send 1 localhost 5001
              [(localhost, 5001); (localhost, 5002); (localhost, 5003)]
              example_env [] (example_tick 2 []) eq_refl eq_refl)
    as (_ & _ & W).
  vm_compute in W. vm_compute. exact (proj1 W).
Defined.

Lemma with_send_ok_same (f : Sock -> bool) (e : TickEnv) (m : Machine) :
  queue_at_check (with_send_ok f e) m = queue_at_check e m
  /\ targets (with_send_ok f e) m = targets e m
  /\ event_kind (with_send_ok f e) = event_kind e.
Proof. repeat split. Qed.

Lemma attempt_targets (e : TickEnv) (c id : Z) (socks : list Sock) :
  map sa_sock (map (attempt e c id) socks) = socks
  /\ map sa_data (map (attempt e c id) socks)
     = map (fun _ => format_msg c id) socks.
Proof.
  split; rewrite map_map; simpl; [apply map_id | reflexivity].
Qed.

(** C9. In an iteration that sends, a [sendall] that raises leaves one
    error line on [stderr] and nothing else: the iteration still ends, the
    loop goes on with the next iteration, the peer sockets and hence the
    targets of later random events are what they were, and the clock, the
    log line and the attempted sends are those of the same iteration with
    every send succeeding. *)
Theorem send_failure_is_swallowed (e : TickEnv) (m : Machine) (start : Q)
    (run_time : Z) (envs : list TickEnv) :
  queue_at_check e m = [] ->
  running start run_time e = true ->
  let bad := tick e m in
  let good := tick (with_send_ok (fun _ => true) e) m in
  stderr bad = stderr m ++
    map (fun _ => ErrSending) (filter (fun s => negb (send_ok e s)) (targets e m))
  /\ stderr good = stderr m
  /\ map sa_sock (wire bad) = map sa_sock (wire good)
  /\ map sa_data (wire bad) = map sa_data (wire good)
  /\ logical_clock bad = logical_clock m + 1
  /\ logical_clock bad = logical_clock good
  /\ log_file bad =
       log_file m ++
       [log_line (t_log e) (event_kind e) (logical_clock m + 1) None]
  /\ log_file bad = log_file good
  /\ peer_sockets bad = peer_sockets m
  /\ (forall later, targets later bad = targets later m)
  /\ run_loop start run_time (e :: envs) m = run_loop start run_time envs bad.
Proof.
  intros Hq Hrun bad good.
  destruct (random_tick e m Hq) as (C & L & W & E & _ & F).
  destruct (random_tick (with_send_ok (fun _ => true) e) m Hq)
    as (C' & L' & W' & E' & _).
  fold bad in C, L, W, E, F. fold good in C', L', W', E'.
  apply fixed_fields in F. destruct F as (_ & _ & _ & P & _).
  destruct (with_send_ok_same (fun _ => true) e m) as (_ & T & K).
  rewrite T in W', E'. rewrite K in L'.
  split; [exact E|].
  split.
  { rewrite E'. simpl. rewrite filter_none; [apply app_nil_r|].
    apply Forall_forall. reflexivity. }
  rewrite W, W', !map_app.
  destruct (attempt_targets e (logical_clock m + 1) (machine_id m) (targets e m))
    as [S1 D1].
  destruct (attempt_targets (with_send_ok (fun _ => true) e)
              (logical_clock m + 1) (machine_id m) (targets e m)) as [S2 D2].
  rewrite S1, S2, D1, D2, C, C', L, L', P.
  repeat split.
  - intro later. unfold targets. now rewrite P.
  - simpl. now rewrite Hrun.
Qed.

Lemma send_failure_is_swallowed_witness :
  queue_at_check (example_tick 3 []) example_machine = []
  /\ running 0 60 (example_tick 3 []) = true
  /\ stderr (tick (example_tick 3 []) example_machine)
     = stderr example_machine ++ [ErrSending]
  /\ logical_clock (tick (example_tick 3 []) example_machine) = 1.
Proof.
  split; [reflexivity|]. split; [reflexivity|].
  destruct (send_failure_is_swallowed (example_tick 3 []) example_machine
              0 60 [] eq_refl eq_refl) as (E & _ & _ & _ & C & _).
  vm_compute in E, C. vm_compute. split; [exact E | exact C].
Defined.

(** C10. In an iteration that finds the queue empty and draws 3, the clock
    advances by one, once, and every peer socket is handed the same bytes,
    the record with that advanced clock value, in the order of the
    connection dict; the SEND(3) line carries the same value. *)
Theorem broadcast_single_increment (e : TickEnv) (m : Machine) :
  queue_at_check e m = [] ->
  randint_1_10 e = 3 ->
  let m' := tick e m in
  let c := logical_clock m + 1 in
  logical_clock m' = c
  /\ wire m' = wire m ++ map (attempt e c (machine_id m)) (values (peer_sockets m))
  /\ Forall (fun a => sa_data a = format_msg c (machine_id m))
       (map (attempt e c (machine_id m)) (values (peer_sockets m)))
  /\ log_file m' = log_file m ++ [log_line (t_log e) "SEND(3)" c None].
Proof.
  intros Hq Hr m' c.
  destruct (random_tick e m Hq) as (C & L & W & _).
  fold m' c in C, L, W.
  rewrite (targets_all e m Hr) in W.
  split; [exact C|]. split; [exact W|].
  split.
  - apply Forall_forall. intros a Ha. apply in_map_iff in Ha as (s & <- & _).
    reflexivity.
  - rewrite L. unfold event_kind. now rewrite Hr.
Qed.

Lemma broadcast_single_increment_witness :
  queue_at_check (example_tick 3 []) example_machine = []
  /\ randint_1_10 (example_tick 3 []) = 3
  /\ logical_clock (tick (example_tick 3 []) example_machine) = 1
  /\ wire (tick (example_tick 3 []) example_machine)
     = [ {| sa_sock := 3%nat; sa_data := lit "1:1"; sa_ok := true |};
         {| sa_sock := 6%nat; sa_data := lit "1:1"; sa_ok := false |} ].
Proof.
  split; [reflexivity|]. split; [reflexivity|].
  destruct (broadcast_single_increment (example_tick 3 []) example_machine
              eq_refl eq_refl) as (C & W & _).
  vm_compute in C, W. vm_compute. split; [exact C | exact W].
Defined.

(** C8. Once the loop condition fails, [run] returns: the iterations before
    it have run, none of the later environments is consulted, and [shutdown]
    has written SHUTDOWN as the last line of the log, the only SHUTDOWN line
    in it, closed the log, and closed the server socket and every peer
    socket, each once. *)
Theorem shutdown_after_expiry (id : Z) (host : str) (port : Z)
    (peers : list Addr) (ie : InitEnv) (run_time : Z) (start : Q)
    (pre post : list TickEnv) (e : TickEnv) (now : Q) :
  Forall (fun x => running start run_time x = true) pre ->
  running start run_time e = false ->
  let m0 := init id host port peers ie in
  let final := ticks pre m0 in
  exists m',
    run run_time start (pre ++ e :: post) now m0 = Some m'
    /\ m' = shutdown now final
    /\ log_file m' =
         log_file final ++ [log_line now "SHUTDOWN" (logical_clock final) None]
    /\ List.length (log_file final) = S (List.length pre)
    /\ List.length (filter is_shutdown (log_file m')) = 1%nat
    /\ log_closed m' = true
    /\ closed m' = server_socket m0 :: values (peer_sockets m0)
    /\ NoDup (closed m').
Proof.
  intros Hpre He m0 final.
  exists (shutdown now final).
  unfold run. rewrite (run_loop_stops start run_time pre post e m0 Hpre He).
  fold final. split; [reflexivity|]. split; [reflexivity|].
  destruct (shutdown_spec now final) as (L & Cl & S & _).
  cbv zeta in L, Cl, S.
  destruct (ticks_log pre m0) as (ls & Lt & N & K). fold final in Lt.
  destruct (init_facts id host port peers ie)
    as (_ & _ & _ & _ & _ & _ & L0 & _).
  fold m0 in L0.
  destruct (reachable_sockets id host port peers ie pre) as (P & Sv & C0 & D).
  fold m0 final in P, Sv, C0, D.
  split; [exact L|].
  split; [rewrite Lt, L0; simpl; now rewrite N|].
  split.
  { rewrite L, Lt, L0, !filter_app.
    rewrite (filter_none is_shutdown ls).
    - reflexivity.
    - eapply Forall_impl; [apply tick_kinds_not_shutdown | exact K]. }
  split; [exact Cl|].
  rewrite S, C0, Sv, P. split; [reflexivity | exact D].
Qed.

Lemma shutdown_after_expiry_witness :
  exists m',
    run 60 0 ([example_tick 1 []; example_tick 7 [3]]
              ++ example_expired :: [example_tick 3 []]) 61 example_machine
    = Some m'
    /\ closed m' = [0; 3; 6]%nat
    /\ List.length (log_file m') = 4%nat.
Proof.
  destruct (shutdown_after_expiry 1 localhost 5001
              [(localhost, 5001); (localhost, 5002); (localhost, 5003)]
              example_env 60 0 [example_tick 1 []; example_tick 7 [3]]
              [example_tick 3 []] example_expired 61)
    as (m' & R & _ & L & N & _ & _ & C & _).
  - repeat constructor.
  - reflexivity.
  - exists m'. split; [exact R|].
    vm_compute in C. split; [exact C|].
    rewrite L, length_app, N. reflexivity.
Defined.

(** [preliminary_work/driver.py] has no retry loop: with the environment of
    [example_machine], where every peer answers from the third attempt on,
    its [connect_to_peers] connects to nobody. *)
Remark driver_single_attempt :
  connected (Driver.connect_to_peers (connect_ok example_env)
               (attributes 1 localhost 5001
                  [(localhost, 5001); (localhost, 5002); (localhost, 5003)]
                  example_env)) = []
  /\ connected (connect_to_peers (connect_ok example_env)
               (attributes 1 localhost 5001
                  [(localhost, 5001); (localhost, 5002); (localhost, 5003)]
                  example_env)) = [(localhost, 5002); (localhost, 5003)].
Proof. split; reflexivity. Qed.

Lemma merged_not_terminal (td : Z -> option Z) (c1 id1 c2 id2 : Z) :
  terminal td (RecvData (format_msg c1 id1 ++ format_msg c2 id2)) = false.
Proof.
  unfold terminal. rewrite parse_merged.
  pose proof (format_msg_nonempty c1 id1).
  destruct (format_msg c1 id1); [congruence | reflexivity].
Qed.

(** C5, as the code has it.  A receive worker returns at the first read that
    is empty, that raises, or whose bytes do not decode to text with an
    integer literal before the first colon; it then has closed its own socket
    once, and no other, and has printed one error line unless the read was
    empty.  Until then it has closed nothing.  The values of the reads before
    that one are on the queue, and nothing else of the machine has changed.
    A read that holds two records does not end the worker. *)
Theorem receive_worker_exit (td : Z -> option Z) (sock : Sock)
    (reads : list recv_result) (m : Machine) :
  let r := receive_messages td sock reads m in
  (snd r = Exited <-> existsb (terminal td) reads = true)
  /\ closed (fst r) =
       closed m ++ (if existsb (terminal td) reads then [sock] else [])
  /\ stderr (fst r) =
       stderr m ++ match outcome td reads with
                   | Aborted => [ErrReceiving]
                   | _ => []
                   end
  /\ msg_queue (fst r) = msg_queue m ++ accepted td reads
  /\ apart_from_receiving (fst r) = apart_from_receiving m
  /\ (forall c1 id1 c2 id2,
        terminal td (RecvData (format_msg c1 id1 ++ format_msg c2 id2)) = false).
Proof.
  intro r.
  destruct (receive_messages_spec td sock reads m) as (S & C & E & Q & A).
  fold r in S, C, E, Q, A.
  pose proof (outcome_exited td reads) as X.
  split.
  { rewrite S, <- X. destruct (outcome td reads); split; congruence. }
  split.
  { rewrite C. destruct (existsb (terminal td) reads).
    - destruct (outcome td reads); [|reflexivity ..].
      exfalso. apply (proj2 X); reflexivity.
    - destruct (outcome td reads); [reflexivity| |];
        (assert (false = true) by (apply X; discriminate)); discriminate. }
  split; [exact E|]. split; [exact Q|]. split; [exact A|].
  intros. apply merged_not_terminal.
Qed.

Lemma receive_worker_exit_witness :
  existsb (terminal (fun _ => None))
    [RecvData (lit "5:1"); RecvData (lit "x:1"); RecvData (lit "6:1")] = true
  /\ snd (receive_messages (fun _ => None) 9%nat
            [RecvData (lit "5:1"); RecvData (lit "x:1"); RecvData (lit "6:1")]
            example_machine) = Exited
  /\ closed (fst (receive_messages (fun _ => None) 9%nat
            [RecvData (lit "5:1"); RecvData (lit "x:1"); RecvData (lit "6:1")]
            example_machine)) = [9%nat]
  /\ msg_queue (fst (receive_messages (fun _ => None) 9%nat
            [RecvData (lit "5:1"); RecvData (lit "x:1"); RecvData (lit "6:1")]
            example_machine)) = [5].
Proof.
  split; [reflexivity|].
  destruct (receive_worker_exit (fun _ => None) 9%nat
              [RecvData (lit "5:1"); RecvData (lit "x:1"); RecvData (lit "6:1")]
              example_machine) as (X & C & _ & Q & _).
  split; [apply X; reflexivity|].
  vm_compute in C, Q. vm_compute. split; [exact C | exact Q].
Defined.

(** The claim C5 fails on a read in which two sends have landed: the worker
    takes it for one record, puts 17 on the queue, loses 18, and goes on
    reading with its socket open; when the peer then closes, it returns
    without an error line. *)
Lemma merged_read_is_accepted :
  format_msg 17 2 ++ format_msg 18 2 = lit "17:218:2"
  /\ receive_messages (fun _ => None) 9%nat
       [RecvData (format_msg 17 2 ++ format_msg 18 2)]
       (attributes 2 localhost 5002 [] unreachable_env)
     = (put 17 (attributes 2 localhost 5002 [] unreachable_env), Blocked)
  /\ receive_messages (fun _ => None) 9%nat
       [RecvData (format_msg 17 2 ++ format_msg 18 2); RecvData []]
       (attributes 2 localhost 5002 [] unreachable_env)
     = (close 9%nat (put 17 (attributes 2 localhost 5002 [] unreachable_env)),
        Exited)
  /\ outcome (fun _ => None)
       [RecvData (format_msg 17 2 ++ format_msg 18 2); RecvData []]
     = PeerClosed.
Proof. repeat split. Qed.

(** C6. The bytes [send_message] hands to [sendall] for clock value [c] and
    machine [id] are the text [c:id], and the decoding of [receive_messages]
    gives back [c] from them, for all integers [c] and [id] (negative ones
    too); (17, 2) is sent as ["17:2"] and read back as 17.  A worker that
    reads in one piece what a machine has sent puts the sender's clock on
    the queue. *)
Theorem wire_round_trip (td : Z -> option Z) (c id : Z)
    (ok : Sock -> bool) (s s' : Sock) (sender receiver : Machine) :
  encode_utf8 (format_msg c id) = Some (format_msg c id)
  /\ parse_record td (format_msg c id) = Some c
  /\ format_msg 17 2 = lit "17:2"
  /\ parse_record td (lit "17:2") = Some 17
  /\ wire (send_message ok s sender) =
       wire sender ++
       [ {| sa_sock := s;
            sa_data := format_msg (logical_clock sender) (machine_id sender);
            sa_ok := ok s |} ]
  /\ msg_queue
       (fst (receive_messages td s'
               [RecvData (format_msg (logical_clock sender) (machine_id sender))]
               receiver))
     = msg_queue receiver ++ [logical_clock sender].
Proof.
  split; [apply encode_format_msg|].
  split; [apply parse_format_msg|].
  split; [reflexivity|].
  split; [exact (parse_format_msg td 17 2)|].
  split; [apply send_message_io|].
  destruct (receive_messages_spec td s'
              [RecvData (format_msg (logical_clock sender) (machine_id sender))]
              receiver) as (_ & _ & _ & Q & _).
  cbv zeta in Q. rewrite Q. f_equal.
  pose proof (format_msg_nonempty (logical_clock sender) (machine_id sender)) as N.
  pose proof (parse_format_msg td (logical_clock sender) (machine_id sender)) as P.
  cbn [accepted].
  destruct (format_msg (logical_clock sender) (machine_id sender));
    [congruence|].
  now rewrite P.
Qed.

(* ================================================================== *)
(** ** Further properties of the code                                 *)
(* ================================================================== *)

(** *** Splitting and joining *)

Lemma split_no_sep (sep : Z) (a : str) :
  Forall (fun c => (c =? sep) = false) a -> split sep a = [a].
Proof.
  induction 1 as [|c a Hc _ IH]; simpl; [reflexivity|].
  now rewrite Hc, IH.
Qed.

Lemma split_app_sep (sep : Z) (a b : str) :
  Forall (fun c => (c =? sep) = false) a ->
  split sep (a ++ sep :: b) = a :: split sep b.
Proof.
  induction 1 as [|c a Hc _ IH]; simpl.
  - now rewrite Z.eqb_refl.
  - now rewrite Hc, IH.
Qed.

Lemma split_join (sep : Z) (parts : list str) :
  parts <> [] ->
  Forall (Forall (fun c => (c =? sep) = false)) parts ->
  split sep (join sep parts) = parts.
Proof.
  intros Hne H. revert Hne.
  induction H as [|p rest Hp Hrest IH]; intro Hne; [now elim Hne|].
  destruct rest as [|q rest].
  - simpl. now apply split_no_sep.
  - change (join sep (p :: q :: rest)) with (p ++ sep :: join sep (q :: rest)).
    rewrite split_app_sep by assumption. f_equal. apply IH. discriminate.
Qed.

Lemma split_length (sep : Z) (s : str) :
  List.length (split sep s) = S (occurrences sep s).
Proof.
  unfold occurrences. induction s as [|c s IH]; simpl; [reflexivity|].
  rewrite (Z.eqb_sym sep c).
  destruct (c =? sep); simpl; [now rewrite IH|].
  destruct (split sep s) as [|p ps] eqn:E; simpl in *; [discriminate | exact IH].
Qed.



(** *** The peer list *)

Lemma format_peer_shape (a : Addr) :
  plain_host (fst a) ->
  Forall visible (format_peer a)
  /\ Forall (fun c => (c =? comma) = false) (format_peer a)
  /\ Forall (fun c => (c =? colon) = false) (fst a).
Proof.
  intro H. unfold format_peer, plain_host in *. rewrite Forall_forall in H.
  split; [|split].
  - apply Forall_app. split.
    + apply Forall_forall. intros c Hc. now apply H.
    + constructor; [reflexivity|].
      eapply Forall_impl; [apply numeric_visible | apply str_of_int_numeric].
  - apply Forall_app. split.
    + apply Forall_forall. intros c Hc. apply Z.eqb_neq. now apply H.
    + constructor; [reflexivity|].
      eapply Forall_impl; [|apply str_of_int_numeric].
      intros c Hc. apply Z.eqb_neq. unfold numeric, comma in *. lia.
  - apply Forall_forall. intros c Hc. apply Z.eqb_neq. now apply H.
Qed.

Lemma parse_format_peer (td : Z -> option Z) (a : Addr) :
  plain_host (fst a) -> parse_peer td (format_peer a) = inr a.
Proof.
  intro H. destruct (format_peer_shape a H) as (V & _ & C).
  unfold parse_peer. rewrite strip_visible by exact V.
  unfold format_peer. rewrite split_app_sep by exact C.
  rewrite split_no_sep.
  - rewrite py_int_str_of_int. now destruct a.
  - eapply Forall_impl; [apply numeric_not_colon | apply str_of_int_numeric].
Qed.

Lemma parse_each_format (td : Z -> option Z) (peers : list Addr) :
  Forall plain_host (map fst peers) ->
  parse_each td (map format_peer peers) = inr peers.
Proof.
  induction peers as [|a peers IH]; simpl; intro H; [reflexivity|].
  inversion H as [|? ? Ha Hrest]; subst.
  now rewrite (parse_format_peer td a Ha), (IH Hrest).
Qed.

Lemma parse_each_length (td : Z -> option Z) (pieces : list str)
    (peers : list Addr) :
  parse_each td pieces = inr peers -> List.length peers = List.length pieces.
Proof.
  revert peers; induction pieces as [|p pieces IH]; simpl; intros peers H.
  - now injection H as <-.
  - destruct (parse_peer td p); [discriminate|].
    destruct (parse_each td pieces) as [|l]; [discriminate|].
    injection H as <-. simpl. f_equal. now apply IH.
Qed.



(** X1. A peer list written as ["host1:port1,host2:port2,..."], with at
    least one peer, host names free of blanks, colons and commas, and ports
    written in decimal with at most 640 digits, is read back by the parsing
    loop of [__init__] as exactly those peers.  (The bound keeps every port
    literal within the digit limit of [int], whatever that limit is set
    to.) *)
Theorem peer_list_round_trip (td : Z -> option Z) (peers : list Addr) :
  peers <> [] ->
  Forall plain_host (map fst peers) ->
  Forall (fun a => (decimal_digits (snd a) <= str_digits_check_threshold)%nat)
    peers ->
  parse_peers td (format_peers peers) = inr peers.
Proof.
  intros Hne Hp _.
  unfold parse_peers, format_peers. rewrite split_join.
  - now apply parse_each_format.
  - destruct peers; [congruence | discriminate].
  - apply Forall_forall. intros s Hs. apply in_map_iff in Hs as (a & <- & Ha).
    apply format_peer_shape. rewrite Forall_forall in Hp. apply Hp.
    now apply in_map.
Qed.

Lemma peer_list_round_trip_witness :
  parse_peers (fun _ => None) (lit "127.0.0.1:5002,127.0.0.1:5003")
  = inr [(localhost, 5002); (localhost, 5003)].
Proof.
  assert (H : forall c, In c localhost ->
               isspace c = false /\ c <> colon /\ c <> comma).
  { intros c Hc. vm_compute in Hc.
    repeat (destruct Hc as [<-|Hc]; [repeat split; discriminate|]).
    destruct Hc. }
  refine (peer_list_round_trip (fun _ => None)
            [(localhost, 5002); (localhost, 5003)] _ _ _).
  - discriminate.
  - assert (P : plain_host localhost) by (apply Forall_forall; exact H).
    exact (Forall_cons _ P (Forall_cons _ P (Forall_nil _))).
  - assert (D : forall n, (n <=? 640)%nat = true ->
                          (n <= str_digits_check_threshold)%nat).
    { intros n Hn. now apply Nat.leb_le. }
    apply Forall_cons; [apply D; reflexivity|].
    apply Forall_cons; [apply D; reflexivity|]. apply Forall_nil.
Defined.

(** X2. When the peer list parses, the machine gets one peer per piece of
    the text: one more than the text has commas.  So [peer_info] is never
    empty. *)
Theorem peer_list_size (td : Z -> option Z) (peers_str : str)
    (peers : list Addr) :
  parse_peers td peers_str = inr peers ->
  List.length peers = S (occurrences comma peers_str) /\ peers <> [].
Proof.
  unfold parse_peers. intro H. apply parse_each_length in H.
  rewrite split_length in H. split; [exact H|].
  destruct peers; [discriminate H | discriminate].
Qed.

Lemma peer_list_size_witness :
  List.length [(localhost, 5002); (localhost, 5003)] = 2%nat
  /\ [(localhost, 5002); (localhost, 5003)] <> [].
Proof.
  exact (peer_list_size (fun _ => None)
           (lit "127.0.0.1:5002,127.0.0.1:5003")
           [(localhost, 5002); (localhost, 5003)] eq_refl).
Defined.



(** *** The dict of peer sockets, again *)

Lemma dict_get_set_same (k : Addr) (s : Sock) (d : list (Addr * Sock)) :
  dict_get k (dict_set k s d) = Some s.
Proof.
  induction d as [|[k0 v] d IH]; simpl.
  - now rewrite addr_eqb_refl.
  - destruct (addr_eqb k0 k) eqn:E; simpl; now rewrite E.
Qed.

Lemma dict_get_set_other (k k' : Addr) (s : Sock) (d : list (Addr * Sock)) :
  k' <> k -> dict_get k' (dict_set k s d) = dict_get k' d.
Proof.
  intro Hn. induction d as [|[k0 v] d IH]; simpl.
  - apply addr_eqb_neq in Hn.
    destruct (addr_eqb k k') eqn:E; [|reflexivity].
    apply addr_eqb_eq in E. subst. now rewrite addr_eqb_refl in Hn.
  - destruct (addr_eqb k0 k) eqn:E; simpl; [|now rewrite IH].
    apply addr_eqb_eq in E. subst k0.
    destruct (addr_eqb k k') eqn:E'; [|reflexivity].
    apply addr_eqb_eq in E'. congruence.
Qed.

Lemma dict_set_keys_NoDup (k : Addr) (s : Sock) (d : list (Addr * Sock)) :
  NoDup (map fst d) -> NoDup (map fst (dict_set k s d)).
Proof.
  induction d as [|[k0 v] d IH]; simpl; intro H.
  - constructor; [tauto | constructor].
  - inversion H as [|? ? Hk Hd]; subst.
    destruct (addr_eqb k0 k) eqn:E; simpl; constructor; auto.
    intro Hin. apply dict_set_keys in Hin as [->|Hin]; [|tauto].
    now rewrite addr_eqb_refl in E.
Qed.

Lemma dict_set_length (k : Addr) (s : Sock) (d : list (Addr * Sock)) :
  List.length (dict_set k s d)
  = match dict_get k d with
    | Some _ => List.length d
    | None => S (List.length d)
    end.
Proof.
  induction d as [|[k0 v] d IH]; simpl; [reflexivity|].
  destruct (addr_eqb k0 k); simpl; [reflexivity|].
  rewrite IH. now destruct (dict_get k d).
Qed.

Lemma dict_get_In (k : Addr) (s : Sock) (d : list (Addr * Sock)) :
  dict_get k d = Some s -> In s (values d) /\ In k (map fst d).
Proof.
  induction d as [|[k0 v] d IH]; simpl; [discriminate|].
  destruct (addr_eqb k0 k) eqn:E.
  - intros [= ->]. apply addr_eqb_eq in E. auto.
  - intro H. apply IH in H. tauto.
Qed.

Lemma dict_get_None (k : Addr) (d : list (Addr * Sock)) :
  dict_get k d = None <-> ~ In k (map fst d).
Proof.
  induction d as [|[k0 v] d IH]; simpl; [tauto|].
  destruct (addr_eqb k0 k) eqn:E.
  - apply addr_eqb_eq in E. split; [discriminate | tauto].
  - apply addr_eqb_neq in E. rewrite IH. tauto.
Qed.

Lemma dict_set_drops_old (k : Addr) (s old : Sock) (d : list (Addr * Sock)) :
  dict_get k d = Some old ->
  NoDup (values d) -> ~ In s (values d) ->
  ~ In old (values (dict_set k s d)).
Proof.
  induction d as [|[k0 v] d IH]; simpl; [discriminate|].
  intros Hg Hnd Hs. inversion Hnd as [|? ? Hv Hd]; subst.
  destruct (addr_eqb k0 k) eqn:E; simpl.
  - injection Hg as ->. intros [->|H]; tauto.
  - intros [->|H].
    + apply dict_get_In in Hg. tauto.
    + revert H. apply IH; tauto.
Qed.

(** *** One entry of the peer list, in full *)

Lemma seq_filter_below (n : nat) :
  (n <= 5)%nat ->
  (List.length (filter (fun k => (k <? 5)%nat) (seq 1 n)) <= 4)%nat.
Proof.
  intro H.
  destruct n as [|[|[|[|[|[|n]]]]]]; simpl; lia.
Qed.

Lemma connect_entry (ok : nat -> nat -> bool) (i : nat) (p : Addr)
    (rest : list Addr) (m : Machine) :
  exists m1,
    connect_each ok i (p :: rest) m = connect_each ok (S i) rest m1
    /\ apart_from_connecting m1 = apart_from_connecting m
    /\ (NoDup (connected m) -> NoDup (connected m1))
    /\ (forall q, In q (connected m1) ->
                  In q (connected m) \/ (q = p /\ p <> own_address m))
    /\ (List.length (peer_sockets m1) <= S (List.length (peer_sockets m)))%nat
    /\ (exists errs, stderr m1 = stderr m ++ errs
                     /\ (List.length errs <= 5)%nat
                     /\ (ok i 1%nat = true -> errs = []))
    /\ (exists naps, sleeps m1 = sleeps m ++ naps
                     /\ (List.length naps <= 4)%nat
                     /\ Forall (fun d => d = 1%Q) naps
                     /\ (ok i 1%nat = true -> naps = []))
    /\ (next_sock m <= next_sock m1 <= next_sock m + 5)%nat
    /\ (p <> own_address m -> ok i 1%nat = true -> In p (connected m1)).
Proof.
  cbn [connect_each]. unfold own_address.
  destruct (addr_eqb p (listen_host m, listen_port m)) eqn:E.
  - exists m. apply addr_eqb_eq in E.
    split; [reflexivity|]. split; [reflexivity|]. split; [auto|].
    split; [auto|]. split; [lia|].
    split; [exists []; rewrite app_nil_r; simpl; split; [reflexivity|]; split; [lia | auto]|].
    split; [exists []; rewrite app_nil_r; simpl; repeat split; auto; lia|].
    split; [lia|]. intros H; contradiction.
  - exists (connect_attempts (ok i) p 1 max_retries m).
    apply addr_eqb_neq in E.
    destruct (connect_attempts_spec (ok i) p 1 max_retries m)
      as (A & Er & Sl & D & N).
    cbv zeta in A, Er, Sl, D, N.
    destruct (failed_bound (ok i) 1 max_retries) as (B & n & F & K).
    assert (Hone : ok i 1%nat = true -> failed (ok i) 1 max_retries = []).
    { intro H. simpl. now rewrite H. }
    assert (Hfs : ok i 1%nat = true ->
                  first_success (ok i) 1 max_retries = Some 1%nat).
    { intro H. simpl. now rewrite H. }
    assert (Hn : (n <= 5)%nat).
    { rewrite F, length_seq in B. unfold max_retries in B. lia. }
    unfold connected. rewrite D, Er, Sl, N.
    split; [reflexivity|]. split; [exact A|].
    split.
    { destruct (first_success (ok i) 1 max_retries); [|auto].
      apply dict_set_keys_NoDup. }
    split.
    { intros q Hq. destruct (first_success (ok i) 1 max_retries); [|auto].
      apply dict_set_keys in Hq as [->|Hq]; auto. }
    split.
    { destruct (first_success (ok i) 1 max_retries); [|lia].
      rewrite dict_set_length. destruct (dict_get p (peer_sockets m)); lia. }
    split.
    { eexists. split; [reflexivity|]. rewrite length_map. split.
      - rewrite F, length_seq. exact Hn.
      - intro H. now rewrite (Hone H). }
    split.
    { eexists. split; [reflexivity|]. rewrite length_map. split; [|split].
      - rewrite F. now apply seq_filter_below.
      - apply Forall_forall. intros d Hd.
        apply in_map_iff in Hd as (x & <- & _). reflexivity.
      - intro H. now rewrite (Hone H). }
    split.
    { rewrite F, length_seq in B |- *.
      destruct (first_success (ok i) 1 max_retries);
        unfold max_retries in B; lia. }
    intros _ H. rewrite (Hfs H). apply dict_set_key.
Qed.

Lemma connect_each_full (ok : nat -> nat -> bool) (i : nat)
    (peers : list Addr) (m : Machine) :
  let m' := connect_each ok i peers m in
  (NoDup (connected m) -> NoDup (connected m'))
  /\ (forall q, In q (connected m') ->
                In q (connected m) \/ (In q peers /\ q <> own_address m))
  /\ (List.length (peer_sockets m')
      <= List.length (peer_sockets m) + List.length peers)%nat
  /\ (exists errs, stderr m' = stderr m ++ errs
                   /\ (List.length errs <= 5 * List.length peers)%nat
                   /\ ((forall j, ok j 1%nat = true) -> errs = []))
  /\ (exists naps, sleeps m' = sleeps m ++ naps
                   /\ (List.length naps <= 4 * List.length peers)%nat
                   /\ Forall (fun d => d = 1%Q) naps
                   /\ ((forall j, ok j 1%nat = true) -> naps = []))
  /\ (next_sock m <= next_sock m' <= next_sock m + 5 * List.length peers)%nat
  /\ ((forall j, ok j 1%nat = true) ->
      forall q, In q peers -> q <> own_address m -> In q (connected m')).
Proof.
  revert i m; induction peers as [|p rest IH]; intros i m.
  - simpl. split; [auto|]. split; [auto|]. split; [lia|].
    split; [exists []; rewrite app_nil_r; auto|].
    split; [exists []; rewrite app_nil_r; auto|].
    split; [lia|]. intros _ q [].
  - destruct (connect_entry ok i p rest m)
      as (m1 & E & A & Nd & K & L & (e1 & Er & Le & Ze) & (n1 & Sl & Ln & Fn & Zn)
          & Nx & C).
    cbv zeta. rewrite E.
    destruct (IH (S i) m1)
      as (Nd' & K' & L' & (e2 & Er' & Le' & Ze') & (n2 & Sl' & Ln' & Fn' & Zn')
          & Nx' & C').
    cbv zeta in Nd', K', L', Er', Sl', Nx', C'.
    assert (Own : own_address m1 = own_address m).
    { unfold own_address. apply apart_fields in A.
      destruct A as (_ & -> & -> & _). reflexivity. }
    rewrite Own in K', C'.
    split; [auto|].
    split.
    { intros q Hq. apply K' in Hq as [Hq|[Hq Hn]].
      - apply K in Hq as [Hq|[-> Hn]]; [auto|]. right. split; [now left | exact Hn].
      - right. split; [now right | exact Hn]. }
    split; [simpl; lia|].
    split.
    { exists (e1 ++ e2). rewrite Er', Er, app_assoc. split; [reflexivity|].
      rewrite length_app. split; [simpl; lia|].
      intro H. now rewrite (Ze (H i)), (Ze' H). }
    split.
    { exists (n1 ++ n2). rewrite Sl', Sl, app_assoc. split; [reflexivity|].
      rewrite length_app. split; [simpl; lia|]. split.
      - apply Forall_app. auto.
      - intro H. now rewrite (Zn (H i)), (Zn' H). }
    split; [simpl; lia|].
    intros H q [<-|Hq] Hn.
    + apply connect_each_frame. apply C; auto.
    + now apply C'.
Qed.

Lemma init_connect_fields (id : Z) (host : str) (port : Z) (peers : list Addr)
    (ie : InitEnv) :
  let m0 := attributes id host port peers ie in
  let m1 := connect_each (connect_ok ie) 0 peers m0 in
  let m := init id host port peers ie in
  peer_sockets m = peer_sockets m1 /\ stderr m = stderr m1
  /\ sleeps m = sleeps m1 /\ next_sock m = next_sock m1.
Proof. repeat split. Qed.

(** X4. The connection dict of a running machine has one entry per peer at
    most: its keys are pairwise different, each is a configured peer, none is
    the machine's own address, and there are no more of them than configured
    peers. *)
Theorem connections_are_configured_peers (id : Z) (host : str) (port : Z)
    (peers : list Addr) (ie : InitEnv) (envs : list TickEnv) :
  let m := ticks envs (init id host port peers ie) in
  NoDup (connected m)
  /\ ~ In (host, port) (connected m)
  /\ (forall q, In q (connected m) -> In q peers)
  /\ (List.length (peer_sockets m) <= List.length peers)%nat.
Proof.
  intro m.
  assert (P : peer_sockets m
              = peer_sockets (connect_each (connect_ok ie) 0 peers
                                (attributes id host port peers ie))).
  { unfold m.
    destruct (fixed_fields _ _ (ticks_fixed envs (init id host port peers ie)))
      as (_ & _ & _ & P & _).
    rewrite P. apply init_connect_fields. }
  destruct (connect_each_full (connect_ok ie) 0 peers
              (attributes id host port peers ie)) as (Nd & K & L & _).
  cbv zeta in Nd, K, L. unfold connected in *. rewrite P.
  split; [apply Nd; constructor|].
  split.
  { intro H. apply K in H as [[]|[_ H]]. now apply H. }
  split.
  { intros q H. apply K in H as [[]|[H _]]. exact H. }
  exact L.
Qed.

(** X5. Start-up costs at most five connection attempts and four one-second
    sleeps per configured peer: [__init__] creates at most [1 + 5 n] sockets,
    prints at most [5 n] error lines and sleeps at most [4 n] times, one
    second each, for [n] configured peers. *)
Theorem startup_effort_is_bounded (id : Z) (host : str) (port : Z)
    (peers : list Addr) (ie : InitEnv) :
  let m := init id host port peers ie in
  (next_sock m <= 1 + 5 * List.length peers)%nat
  /\ (List.length (stderr m) <= 5 * List.length peers)%nat
  /\ (List.length (sleeps m) <= 4 * List.length peers)%nat
  /\ Forall (fun d => d = 1%Q) (sleeps m).
Proof.
  intro m.
  destruct (init_connect_fields id host port peers ie) as (_ & E & S & N).
  fold m in E, S, N. rewrite E, S, N.
  destruct (connect_each_full (connect_ok ie) 0 peers
              (attributes id host port peers ie))
    as (_ & _ & _ & (errs & Er & Le & _) & (naps & Sl & Ln & Fn & _) & Nx & _).
  cbv zeta in Er, Sl, Nx. rewrite Er, Sl. simpl in *.
  split; [lia|]. split; [exact Le|]. split; [exact Ln | exact Fn].
Qed.

(** X6. When every peer answers the first attempt, start-up prints nothing,
    never sleeps, and connects to every configured peer other than the
    machine itself. *)
Theorem clean_startup (id : Z) (host : str) (port : Z) (peers : list Addr)
    (ie : InitEnv) :
  (forall j, connect_ok ie j 1%nat = true) ->
  let m := init id host port peers ie in
  stderr m = [] /\ sleeps m = []
  /\ forall q, In q peers -> q <> (host, port) -> In q (connected m).
Proof.
  intros H m.
  destruct (init_connect_fields id host port peers ie) as (P & E & S & _).
  fold m in P, E, S. unfold connected. rewrite P, E, S.
  destruct (connect_each_full (connect_ok ie) 0 peers
              (attributes id host port peers ie))
    as (_ & _ & _ & (errs & Er & _ & Ze) & (naps & Sl & _ & _ & Zn) & _ & C).
  cbv zeta in Er, Sl, C. rewrite Er, Sl, (Ze H), (Zn H).
  split; [reflexivity|]. split; [reflexivity|].
  intros q Hq Hn. now apply C.
Qed.

Lemma clean_startup_witness :
  stderr (init 1 localhost 5001
            [(localhost, 5001); (localhost, 5002); (localhost, 5003)]
            reachable_env) = []
  /\ In (localhost, 5003)
       (connected (init 1 localhost 5001
                     [(localhost, 5001); (localhost, 5002); (localhost, 5003)]
                     reachable_env)).
Proof.
  destruct (clean_startup 1 localhost 5001
              [(localhost, 5001); (localhost, 5002); (localhost, 5003)]
              reachable_env (fun _ => eq_refl)) as (E & _ & C).
  split; [exact E|]. apply C; [simpl; tauto | discriminate].
Defined.

(** *** The single attempt of [driver.py] *)

Lemma driver_connect_each (ok : nat -> nat -> bool) (i : nat)
    (peers : list Addr) (m : Machine) :
  let m' := Driver.connect_each ok i peers m in
  (own_address m' = own_address m
   /\ ticks_per_second m' = ticks_per_second m)
  /\ sleeps m' = sleeps m
  /\ logical_clock m' = logical_clock m
  /\ log_file m' = log_file m
  /\ (next_sock m' <= next_sock m + List.length peers)%nat
  /\ (forall q, In q (connected m') <->
        In q (connected m)
        \/ (q <> own_address m
            /\ exists j, nth_error peers j = Some q
                         /\ ok (i + j)%nat 1%nat = true)).
Proof.
  revert i m; induction peers as [|p rest IH]; intros i m.
  - simpl. repeat split; auto; try lia.
    intros [H|(_ & j & Hj & _)]; [exact H|]. destruct j; discriminate.
  - cbn [Driver.connect_each].
    match goal with |- context [Driver.connect_each ok (S i) rest ?x] =>
      set (m1 := x) end.
    destruct (IH (S i) m1) as ([O T] & Sl & C & L & N & K).
    cbv zeta in O, T, Sl, C, L, N, K. cbv zeta.
    assert (F : (own_address m1 = own_address m
                 /\ ticks_per_second m1 = ticks_per_second m)
                /\ sleeps m1 = sleeps m
                /\ logical_clock m1 = logical_clock m
                /\ log_file m1 = log_file m
                /\ (next_sock m1 <= S (next_sock m))%nat
                /\ (forall q, In q (connected m1) <->
                      In q (connected m)
                      \/ (q <> own_address m /\ q = p
                          /\ ok i 1%nat = true))).
    { unfold m1, own_address.
      destruct (addr_eqb p (listen_host m, listen_port m)) eqn:E.
      - apply addr_eqb_eq in E. repeat split; auto.
        intros [H|(Hn & -> & _)]; [exact H | contradiction].
      - apply addr_eqb_neq in E.
        destruct (ok i 1%nat) eqn:Ok; unfold connected; simpl;
          repeat split; auto.
        + intro H. apply dict_set_keys in H as [->|H]; auto.
        + intros [H|(_ & -> & _)];
            [now apply dict_set_keeps | apply dict_set_key].
        + intros [H|(_ & _ & H)]; [exact H | discriminate]. }
    destruct F as ([O1 T1] & S1 & C1 & L1 & N1 & K1).
    rewrite O, T, Sl, C, L, O1, T1, S1, C1, L1.
    split; [split; reflexivity|]. split; [reflexivity|].
    split; [reflexivity|].
    split; [reflexivity|]. split; [simpl; lia|].
    intro q. rewrite K, O1, K1. split.
    + intros [[H|(Hn & -> & Hok)]|(Hn & j & Hj & Hok)].
      * now left.
      * right. split; [exact Hn|]. exists 0%nat.
        rewrite Nat.add_0_r. auto.
      * right. split; [exact Hn|]. exists (S j).
        rewrite <- Nat.add_succ_comm. auto.
    + intros [H|(Hn & j & Hj & Hok)]; [now left; left|].
      destruct j as [|j]; simpl in Hj.
      * injection Hj as ->. rewrite Nat.add_0_r in Hok. left; right. auto.
      * right. split; [exact Hn|]. exists j.
        rewrite Nat.add_succ_comm. auto.
Qed.

(** X7. ([driver.py]) The preliminary machine tries every configured peer
    other than itself exactly once and never sleeps: after start-up a peer is
    in the connection dict exactly when one of its entries in the peer list
    answered that one attempt. *)
Theorem preliminary_connects_once (id : Z) (host : str) (port : Z)
    (peers : list Addr) (ie : InitEnv) :
  let m := Preliminary.init id host port peers ie in
  sleeps m = []
  /\ logical_clock m = 0
  /\ log_file m = [init_line (t_init ie) (randint_1_12 ie)]
  /\ (next_sock m <= 1 + List.length peers)%nat
  /\ forall q, In q (connected m) <->
       (q <> (host, port)
        /\ exists j, nth_error peers j = Some q
                     /\ connect_ok ie j 1%nat = true).
Proof.
  intro m.
  destruct (driver_connect_each (connect_ok ie) 0 peers
              (attributes id host port peers ie))
    as ([_ T] & Sl & C & L & N & K).
  cbv zeta in T, Sl, C, L, N, K.
  unfold m, Preliminary.init, Driver.connect_to_peers. cbv zeta.
  change (peer_info (attributes id host port peers ie)) with peers.
  rewrite T. unfold log_event, connected.
  cbn [sleeps logical_clock log_file next_sock peer_sockets set_log_file].
  rewrite Sl, C, L.
  split; [reflexivity|]. split; [reflexivity|]. split; [reflexivity|].
  split; [simpl in N; lia|].
  intro q. unfold connected in K. rewrite K. simpl. unfold own_address. simpl.
  tauto.
Qed.

(** X8. When the retry loop connects to a peer that already has an entry in
    the connection dict (a peer listed twice), the entry keeps its place and
    gets the new socket; the socket it held before is in the dict no more,
    and [shutdown] does not close it. *)
Theorem reconnect_replaces_socket (ok : nat -> bool) (p : Addr) (m : Machine)
    (old : Sock) (k : nat) (now : Q) :
  sockets_distinct m ->
  dict_get p (peer_sockets m) = Some old ->
  first_success ok 1 max_retries = Some k ->
  let m' := connect_attempts ok p 1 max_retries m in
  dict_get p (peer_sockets m') = Some (next_sock m + (k - 1))%nat
  /\ List.length (peer_sockets m') = List.length (peer_sockets m)
  /\ connected m' = connected m
  /\ ~ In old (values (peer_sockets m'))
  /\ (~ In old (closed m) -> ~ In old (closed (shutdown now m'))).
Proof.
  intros [Hnd Hlt] Hg Hk m'.
  destruct (connect_attempts_spec ok p 1 max_retries m) as (A & _ & _ & D & _).
  fold m' in A, D. rewrite Hk in D.
  apply apart_fields in A.
  destruct A as (_ & _ & _ & _ & _ & _ & _ & _ & Sv & Cl & _).
  inversion Hnd as [|? ? Hsrv Hv]; subst.
  inversion Hlt as [|? ? _ Hv0]; subst. rewrite Forall_forall in Hv0.
  assert (Hfresh : ~ In (next_sock m + (k - 1))%nat (values (peer_sockets m))).
  { intro H. apply Hv0 in H. lia. }
  assert (Hold : ~ In old (values (peer_sockets m'))).
  { rewrite D. now apply dict_set_drops_old. }
  rewrite D.
  split; [apply dict_get_set_same|].
  split; [rewrite dict_set_length; now rewrite Hg|].
  split.
  { unfold connected. rewrite D. clear -Hg.
    induction (peer_sockets m) as [|[k0 v] d IH]; simpl in *; [discriminate|].
    destruct (addr_eqb k0 p); simpl; [reflexivity|]. f_equal. now apply IH. }
  split; [now rewrite <- D|].
  intros Hc Hin.
  destruct (shutdown_spec now m') as (_ & _ & C & _). cbv zeta in C.
  rewrite C, Cl, Sv in Hin. apply in_app_or in Hin as [H|[H|H]].
  - contradiction.
  - apply dict_get_In in Hg. subst old. tauto.
  - contradiction.
Qed.

Lemma reconnect_replaces_socket_witness :
  dict_get (localhost, 5002) (peer_sockets example_machine) = Some 3%nat
  /\ dict_get (localhost, 5002)
       (peer_sockets (connect_attempts (fun _ => true) (localhost, 5002) 1
                        max_retries example_machine)) = Some 7%nat.
Proof.
  split; [reflexivity|].
  assert (D : sockets_distinct example_machine) by apply init_facts.
  exact (proj1 (reconnect_replaces_socket (fun _ => true) (localhost, 5002)
                  example_machine 3%nat 1%nat 0 D eq_refl eq_refl)).
Defined.

(** *** Whole runs *)

Lemma targets_in (e : TickEnv) (m : Machine) (s : Sock) :
  In s (targets e m) -> In s (values (peer_sockets m)).
Proof.
  unfold targets.
  destruct (randint_1_10 e =? 1).
  { destruct (nth_error _ _) eqn:E; [|intros []].
    intros [<-|[]]. eapply nth_error_In. exact E. }
  destruct (randint_1_10 e =? 2).
  { destruct (values (peer_sockets m)) as [|s1 [|s2 rest]]; simpl; tauto. }
  destruct (randint_1_10 e =? 3); [tauto | intros []].
Qed.

Lemma tick_cases (e : TickEnv) (m : Machine) :
  (exists v q,
      queue_at_check e m = v :: q
      /\ msg_queue (tick e m)
         = q ++ arrived_before_get e ++ arrived_before_qsize e
      /\ logical_clock (tick e m) = Z.max (logical_clock m) v + 1
      /\ wire (tick e m) = wire m)
  \/ (queue_at_check e m = []
      /\ msg_queue (tick e m) = msg_queue m
      /\ logical_clock (tick e m) = logical_clock m + 1
      /\ wire (tick e m)
         = wire m ++ map (attempt e (logical_clock m + 1) (machine_id m))
                       (targets e m)).
Proof.
  destruct (tick_action_cases e m) as [(v & q & H) | H].
  - left. exists v, q. destruct (receive_tick e m v q H) as (Q & C & _ & W & _).
    auto.
  - right. destruct (random_tick e m H) as (C & _ & W & _ & Q & _). auto.
Qed.

Lemma sound_attempt_step (e : TickEnv) (m : Machine) :
  0 <= logical_clock m ->
  Forall (sound_attempt m) (wire m) ->
  Forall (sound_attempt (tick e m)) (wire (tick e m)).
Proof.
  intros H0 H.
  destruct (fixed_fields _ _ (tick_fixed e m)) as (Id & _ & _ & P & _).
  pose proof (tick_clock e m) as [Hlt _].
  assert (Hold : Forall (sound_attempt (tick e m)) (wire m)).
  { eapply Forall_impl; [|exact H]. intros a (Hs & c & Hc & Hd).
    unfold sound_attempt. rewrite P, Id. split; [exact Hs|].
    exists c. split; [lia | exact Hd]. }
  destruct (tick_cases e m) as [(v & q & _ & _ & _ & W)|(_ & _ & C & W)];
    rewrite W; [exact Hold|].
  apply Forall_app. split; [exact Hold|].
  apply Forall_forall. intros a Ha. apply in_map_iff in Ha as (s & <- & Hs).
  unfold sound_attempt. rewrite P, Id. simpl. split; [exact (targets_in e m s Hs)|].
  exists (logical_clock m + 1). split; [lia | reflexivity].
Qed.

(** X9. Every [sendall] a machine has made since start-up went to one of its
    peer sockets and carried the record of a clock value between 1 and its
    present clock, with its own id: it never sends on the server socket, and
    never a clock value it has not had. *)
Theorem sends_are_sound (id : Z) (host : str) (port : Z) (peers : list Addr)
    (ie : InitEnv) (envs : list TickEnv) :
  let m := ticks envs (init id host port peers ie) in
  Forall (sound_attempt m) (wire m)
  /\ Forall (fun a => sa_sock a <> server_socket m) (wire m)
  /\ machine_id m = id.
Proof.
  intro m.
  assert (I : forall l m0, 0 <= logical_clock m0 ->
                Forall (sound_attempt m0) (wire m0) ->
                Forall (sound_attempt (ticks l m0)) (wire (ticks l m0))).
  { induction l as [|e l IH]; intros m0 H0 H; [exact H|].
    change (ticks (e :: l) m0) with (ticks l (tick e m0)).
    apply IH; [pose proof (tick_clock e m0); lia | now apply sound_attempt_step]. }
  destruct (init_facts id host port peers ie)
    as (Id & _ & _ & _ & C0 & _ & _ & _ & _ & _ & W0 & _).
  assert (S : Forall (sound_attempt m) (wire m)).
  { apply I; [lia | rewrite W0; constructor]. }
  split; [exact S|].
  destruct (reachable_sockets id host port peers ie envs) as (P & Sv & _ & D).
  fold m in P, Sv.
  split.
  - eapply Forall_impl; [|exact S]. intros a [Hs _] E.
    rewrite P in Hs. rewrite Sv in E. rewrite E in Hs.
    inversion D; tauto.
  - destruct (fixed_fields _ _ (ticks_fixed envs (init id host port peers ie)))
      as (Idm & _). fold m in Idm. now rewrite Idm.
Qed.

Lemma sorted_snoc (l : list Z) (x : Z) :
  StronglySorted Z.lt l -> Forall (fun y => y < x) l ->
  StronglySorted Z.lt (l ++ [x]).
Proof.
  induction 1 as [|y l Hl IH Hy]; intro H; simpl.
  - constructor; constructor.
  - inversion H; subst. constructor; [now apply IH|].
    apply Forall_app. split; [exact Hy | constructor; [assumption | constructor]].
Qed.

Lemma log_sorted_step (e : TickEnv) (m : Machine) :
  StronglySorted Z.lt (map ll_L (log_file m)) ->
  Forall (fun l => ll_L l <= logical_clock m) (log_file m) ->
  StronglySorted Z.lt (map ll_L (log_file (tick e m)))
  /\ Forall (fun l => ll_L l <= logical_clock (tick e m)) (log_file (tick e m))
  /\ last (map ll_L (log_file (tick e m))) 0 = logical_clock (tick e m).
Proof.
  intros Hs Hb.
  destruct (tick_log e m) as (l & L & _ & Ll).
  pose proof (tick_clock e m) as [Hlt _].
  rewrite L, map_app. simpl. split; [|split].
  - apply sorted_snoc; [exact Hs|]. rewrite Forall_map.
    eapply Forall_impl; [|exact Hb]. simpl. intros; lia.
  - apply Forall_app. split.
    + eapply Forall_impl; [|exact Hb]. simpl. intros; lia.
    + constructor; [lia | constructor].
  - rewrite last_last. exact Ll.
Qed.

(** X10. The log of a machine that has made [n] iterations is the INIT line
    followed by [n] lines; the clock values in its [L=] column are strictly
    increasing from 0, and the last one is the machine's present clock. *)
Theorem log_clock_column_increases (id : Z) (host : str) (port : Z)
    (peers : list Addr) (ie : InitEnv) (envs : list TickEnv) :
  let m := ticks envs (init id host port peers ie) in
  (exists ls, log_file m = init_line (t_init ie) (randint_1_12 ie) :: ls
              /\ List.length ls = List.length envs)
  /\ StronglySorted Z.lt (map ll_L (log_file m))
  /\ last (map ll_L (log_file m)) 0 = logical_clock m.
Proof.
  intro m.
  destruct (init_facts id host port peers ie)
    as (_ & _ & _ & _ & C0 & _ & L0 & _).
  split.
  { destruct (ticks_log envs (init id host port peers ie)) as (ls & L & N & _).
    fold m in L. rewrite L0 in L. exists ls. auto. }
  assert (I : forall l m0,
            StronglySorted Z.lt (map ll_L (log_file m0)) ->
            Forall (fun x => ll_L x <= logical_clock m0) (log_file m0) ->
            last (map ll_L (log_file m0)) 0 = logical_clock m0 ->
            StronglySorted Z.lt (map ll_L (log_file (ticks l m0)))
            /\ last (map ll_L (log_file (ticks l m0))) 0
               = logical_clock (ticks l m0)).
  { induction l as [|e l IH]; intros m0 Hs Hb Hl; [auto|].
    change (ticks (e :: l) m0) with (ticks l (tick e m0)).
    destruct (log_sorted_step e m0 Hs Hb) as (Hs' & Hb' & Hl').
    now apply IH. }
  apply I; rewrite L0, ?C0; cbn [map ll_L init_line last].
  - repeat constructor.
  - constructor; [|constructor]. unfold init_line. cbn [ll_L]. lia.
  - reflexivity.
Qed.

(** X11. [n] iterations raise the clock by at least [n]; by exactly [n], with
    the queue still empty, when the queue is empty at the start and nothing
    arrives. *)
Theorem clock_counts_iterations (envs : list TickEnv) (m : Machine) :
  logical_clock m + Z.of_nat (List.length envs)
    <= logical_clock (ticks envs m)
  /\ (msg_queue m = [] ->
      Forall (fun e => arrived_before_empty e = []) envs ->
      logical_clock (ticks envs m)
        = logical_clock m + Z.of_nat (List.length envs)
      /\ msg_queue (ticks envs m) = []).
Proof.
  split.
  - revert m; induction envs as [|e envs IH]; intro m; [simpl; lia|].
    change (ticks (e :: envs) m) with (ticks envs (tick e m)).
    specialize (IH (tick e m)). pose proof (tick_clock e m) as [H _].
    cbn [List.length]. lia.
  - intros Hq Ha. revert m Hq.
    induction Ha as [|e envs He _ IH]; intros m Hq; [simpl; split; [lia | exact Hq]|].
    change (ticks (e :: envs) m) with (ticks envs (tick e m)).
    assert (Hc : queue_at_check e m = []).
    { unfold queue_at_check. now rewrite Hq, He. }
    destruct (tick_cases e m) as [(v & q & H & _)|(_ & Q & C & _)];
      [congruence|].
    destruct (IH (tick e m)) as [C' Q']; [congruence|].
    rewrite C', C, Q'. cbn [List.length]. split; [lia | reflexivity].
Qed.

Lemma clock_counts_iterations_witness :
  msg_queue example_machine = []
  /\ logical_clock (ticks [example_tick 1 []; example_tick 7 []; example_tick 3 []]
                      example_machine) = 3.
Proof.
  split; [reflexivity|].
  destruct (clock_counts_iterations
              [example_tick 1 []; example_tick 7 []; example_tick 3 []]
              example_machine) as [_ H].
  destruct H as [C _]; [reflexivity | repeat constructor|].
  rewrite C. reflexivity.
Defined.

(** X12. The queue loses nothing and keeps the order: at any point of a run
    the values the loop has taken off the queue, followed by the values
    still queued, are the values that were queued at the start followed by
    those that arrived, in order of arrival; and the clock is above every
    value taken. *)
Theorem queue_is_fifo (envs : list TickEnv) (m : Machine) :
  consumed_all envs m ++ msg_queue (ticks envs m)
    = msg_queue m ++ arrivals_all envs m
  /\ Forall (fun v => v < logical_clock (ticks envs m)) (consumed_all envs m).
Proof.
  revert m; induction envs as [|e envs IH]; intro m.
  - simpl. rewrite app_nil_r. split; [reflexivity | constructor].
  - change (ticks (e :: envs) m) with (ticks envs (tick e m)).
    destruct (IH (tick e m)) as [Q F].
    cbn [consumed_all arrivals_all]. rewrite <- app_assoc, Q.
    pose proof (ticks_clock envs (tick e m)) as Hge.
    unfold consumed, arrivals.
    destruct (tick_cases e m) as [(v & q & H & Qm & C & _)|(H & Qm & C & _)];
      rewrite H, Qm.
    + split.
      * unfold queue_at_check in H.
        rewrite (app_assoc (msg_queue m)), (app_assoc (msg_queue m)), H.
        simpl. now rewrite <- !app_assoc.
      * apply Forall_app. split; [|exact F].
        constructor; [lia | constructor].
    + split; [|exact F].
      unfold queue_at_check in H. apply app_eq_nil in H as [-> ->].
      reflexivity.
Qed.

Lemma accepted_record (td : Z -> option Z) (c id : Z)
    (rest : list recv_result) :
  accepted td (RecvData (format_msg c id) :: rest) = c :: accepted td rest.
Proof.
  pose proof (format_msg_nonempty c id) as N.
  pose proof (parse_format_msg td c id) as P.
  cbn [accepted]. destruct (format_msg c id); [congruence|]. now rewrite P.
Qed.

(** The iteration that takes the value at position [n] of the queue is the
    one before which [n] values have been taken. *)
Lemma taken_at_position (envs : list TickEnv) (m : Machine) (n : nat) (c : Z) :
  nth_error (msg_queue m) n = Some c ->
  (n < List.length (consumed_all envs m))%nat ->
  exists pre e' post q,
    envs = pre ++ e' :: post
    /\ List.length (consumed_all pre m) = n
    /\ queue_at_check e' (ticks pre m) = c :: q.
Proof.
  revert m n; induction envs as [|e envs IH]; intros m n Hn Hl.
  - simpl in Hl. lia.
  - cbn [consumed_all] in Hl. unfold consumed in Hl.
    destruct (tick_cases e m) as [(v & q0 & H & Qm & _)|(H & _)].
    + rewrite H in Hl. unfold queue_at_check in H.
      destruct n as [|n].
      * exists [], e, envs, q0. split; [reflexivity|]. split; [reflexivity|].
        cbn [ticks fold_left]. unfold queue_at_check.
        destruct (msg_queue m) as [|x l]; [discriminate Hn|].
        simpl in Hn. injection Hn as ->. simpl in H. injection H as <- <-.
        reflexivity.
      * assert (Hq : nth_error (msg_queue (tick e m)) n = Some c).
        { rewrite Qm.
          destruct (msg_queue m) as [|x l]; [destruct n; discriminate Hn|].
          simpl in Hn, H. injection H as _ <-.
          rewrite <- app_assoc. rewrite nth_error_app1; [exact Hn|].
          apply nth_error_Some. congruence. }
        simpl in Hl.
        destruct (IH (tick e m) n Hq) as (pre & e' & post & q & E & L & K);
          [lia|].
        exists (e :: pre), e', post, q. split; [now rewrite E|].
        split.
        { cbn [consumed_all]. unfold consumed, queue_at_check.
          change (msg_queue m ++ arrived_before_empty e)
            with (queue_at_check e m).
          destruct (queue_at_check e m) eqn:Z0; simpl; [|now rewrite L].
          unfold queue_at_check in Z0. apply app_eq_nil in Z0 as [Z0 _].
          rewrite Z0 in Hn. discriminate Hn. }
        exact K.
    + unfold queue_at_check in H. apply app_eq_nil in H as [H _].
      rewrite H in Hn. destruct n; discriminate Hn.
Qed.

(** X13. What a machine sends is received later in logical time.  When an
    iteration of the sender sends to a peer socket, the bytes handed to
    [sendall] carry the sender's clock [c] after that iteration.  A worker of
    the receiver that reads them in one piece puts [c] at the end of the
    queue, behind whatever is queued already, and leaves the clock alone.
    In any run of the receiver from there, with any further arrivals, once
    the loop has taken more values than were queued ahead of [c], [c] has
    been taken: by the iteration before which exactly that many values were
    taken, which set the clock to [max(clock, c) + 1] for the receiver's
    clock at that point; and the receiver's clock is above [c] from then
    on. *)
Theorem receive_after_send (sender receiver : Machine) (e : TickEnv)
    (td : Z -> option Z) (sock s : Sock) (envs : list TickEnv) :
  queue_at_check e sender = [] ->
  In s (targets e sender) ->
  let sent := tick e sender in
  let c := logical_clock sent in
  let data := format_msg c (machine_id sender) in
  let got := fst (receive_messages td sock [RecvData data] receiver) in
  let ahead := List.length (msg_queue receiver) in
  In (attempt e c (machine_id sender) s) (wire sent)
  /\ msg_queue got = msg_queue receiver ++ [c]
  /\ logical_clock got = logical_clock receiver
  /\ ((ahead < List.length (consumed_all envs got))%nat ->
      exists pre e' post q,
        envs = pre ++ e' :: post
        /\ List.length (consumed_all pre got) = ahead
        /\ queue_at_check e' (ticks pre got) = c :: q
        /\ logical_clock (tick e' (ticks pre got))
           = Z.max (logical_clock (ticks pre got)) c + 1
        /\ c < logical_clock (ticks envs got)).
Proof.
  intros Hq Hs sent c data got ahead.
  destruct (random_tick e sender Hq) as (C & _ & W & _).
  fold sent in C, W.
  destruct (receive_messages_spec td sock [RecvData data] receiver)
    as (_ & _ & _ & Q & A).
  fold got in Q, A.
  assert (Cg : logical_clock got = logical_clock receiver).
  { exact (f_equal (fun t => let '(_, _, _, _, x, _, _, _, _, _, _, _, _, _, _)
                               := t in x) A). }
  unfold data in Q. rewrite accepted_record in Q. simpl in Q.
  split.
  { unfold c. rewrite W, C. apply in_or_app. right. now apply in_map. }
  split; [exact Q|]. split; [exact Cg|].
  intro Hl.
  assert (Hn : nth_error (msg_queue got) ahead = Some c).
  { rewrite Q. unfold ahead. rewrite nth_error_app2 by lia.
    now rewrite Nat.sub_diag. }
  destruct (taken_at_position envs got ahead c Hn Hl)
    as (pre & e' & post & q & E & L & K).
  exists pre, e', post, q.
  destruct (receive_tick e' (ticks pre got) c q K) as (_ & Ct & _).
  cbv zeta in Ct.
  split; [exact E|]. split; [exact L|]. split; [exact K|].
  split; [exact Ct|].
  rewrite E, ticks_app.
  change (ticks (e' :: post) (ticks pre got))
    with (ticks post (tick e' (ticks pre got))).
  pose proof (ticks_clock post (tick e' (ticks pre got))). lia.
Qed.

Lemma receive_after_send_witness :
  queue_at_check (example_tick 3 []) example_machine = []
  /\ In 3%nat (targets (example_tick 3 []) example_machine)
  /\ 1 < logical_clock
           (ticks [example_tick 7 [8]; example_tick 7 []; example_tick 7 []]
              (fst (receive_messages (fun _ => None) 9%nat
                      [RecvData (format_msg 1 1)]
                      (set_msg_queue [5]
                         (attributes 2 localhost 5002 [] unreachable_env))))).
Proof.
  split; [reflexivity|]. split; [simpl; tauto|].
  destruct (receive_after_send example_machine
              (set_msg_queue [5]
                 (attributes 2 localhost 5002 [] unreachable_env))
              (example_tick 3 []) (fun _ => None) 9%nat 3%nat
              [example_tick 7 [8]; example_tick 7 []; example_tick 7 []]
              eq_refl) as (_ & _ & _ & H);
    [simpl; tauto|].
  destruct H as (pre & e' & post & q & _ & _ & _ & _ & C).
  - vm_compute. lia.
  - vm_compute in C. vm_compute. exact C.
Defined.

(** X14. An iteration that finds the queue empty and draws anything but 1, 2
    or 3 is an internal event: the clock goes up by one, the INTERNAL line is
    written, and nothing is sent or printed. *)
Theorem internal_event (e : TickEnv) (m : Machine) :
  queue_at_check e m = [] ->
  randint_1_10 e <> 1 -> randint_1_10 e <> 2 -> randint_1_10 e <> 3 ->
  let m' := tick e m in
  logical_clock m' = logical_clock m + 1
  /\ log_file m' =
       log_file m ++ [log_line (t_log e) "INTERNAL" (logical_clock m + 1) None]
  /\ wire m' = wire m /\ stderr m' = stderr m /\ msg_queue m' = msg_queue m.
Proof.
  intros Hq H1 H2 H3 m'.
  destruct (random_tick e m Hq) as (C & L & W & E & Q & _).
  fold m' in C, L, W, E, Q.
  assert (T : targets e m = [] /\ event_kind e = "INTERNAL"%string).
  { unfold targets, event_kind.
    apply Z.eqb_neq in H1, H2, H3. now rewrite H1, H2, H3. }
  destruct T as [T K]. rewrite T in W, E. rewrite K in L. simpl in W, E.
  rewrite app_nil_r in W, E. auto.
Qed.

Lemma internal_event_witness :
  queue_at_check (example_tick 7 []) example_machine = []
  /\ wire (tick (example_tick 7 []) example_machine) = []
  /\ logical_clock (tick (example_tick 7 []) example_machine) = 1.
Proof.
  split; [reflexivity|].
  destruct (internal_event (example_tick 7 []) example_machine eq_refl)
    as (C & _ & W & _); try discriminate.
  vm_compute in C, W. vm_compute. split; [exact W | exact C].
Defined.

(** X15. An iteration that finds the queue empty and draws 1 sends to exactly
    one peer socket when the machine has any, the one at the position
    [random.choice] picks, and to none otherwise; the SEND(1) line is written
    either way. *)
Theorem unicast_send (e : TickEnv) (m : Machine) :
  queue_at_check e m = [] ->
  randint_1_10 e = 1 ->
  let m' := tick e m in
  let c := logical_clock m + 1 in
  let all_socks := values (peer_sockets m) in
  logical_clock m' = c
  /\ log_file m' = log_file m ++ [log_line (t_log e) "SEND(1)" c None]
  /\ (all_socks = [] -> wire m' = wire m)
  /\ (all_socks <> [] ->
      exists sock,
        nth_error all_socks (choice_index e mod List.length all_socks)%nat
          = Some sock
        /\ In sock all_socks
        /\ wire m' = wire m ++ [attempt e c (machine_id m) sock]).
Proof.
  intros Hq Hr m' c all_socks.
  destruct (random_tick e m Hq) as (C & L & W & _).
  fold m' c in C, L, W.
  assert (K : event_kind e = "SEND(1)"%string).
  { unfold event_kind. now rewrite Hr. }
  assert (T : targets e m =
              match nth_error all_socks
                      (choice_index e mod List.length all_socks)%nat with
              | Some sock => [sock]
              | None => []
              end).
  { unfold targets. now rewrite Hr. }
  rewrite K in L. rewrite T in W.
  split; [exact C|]. split; [exact L|]. split.
  - intro H. rewrite H in W. simpl in W. rewrite nth_error_nil in W.
    simpl in W. now rewrite app_nil_r in W.
  - intro H.
    assert (Hlt : (choice_index e mod List.length all_socks
                   < List.length all_socks)%nat).
    { apply Nat.mod_upper_bound. destruct all_socks; [congruence | discriminate]. }
    apply nth_error_Some in Hlt.
    destruct (nth_error all_socks _) as [sock|] eqn:E; [|congruence].
    exists sock. split; [reflexivity|]. split; [|exact W].
    eapply nth_error_In. exact E.
Qed.

Lemma unicast_send_witness :
  queue_at_check (example_tick 1 []) example_machine = []
  /\ randint_1_10 (example_tick 1 []) = 1
  /\ logical_clock (tick (example_tick 1 []) example_machine) = 1.
Proof.
  split; [reflexivity|]. split; [reflexivity|].
  destruct (unicast_send (example_tick 1 []) example_machine eq_refl eq_refl)
    as (C & _).
  vm_compute in C. vm_compute. exact C.
Defined.

(** *** Receive workers, again *)

(** X16. Reading goes on where it stopped: a worker given more reads behaves
    on them as a worker started in the state the first reads left, as long as
    it had not returned; once it has returned, further input on the
    connection changes nothing. *)
Theorem worker_reads_compose (td : Z -> option Z) (sock : Sock)
    (reads more : list recv_result) (m : Machine) :
  receive_messages td sock (reads ++ more) m
  = match snd (receive_messages td sock reads m) with
    | Blocked =>
      receive_messages td sock more (fst (receive_messages td sock reads m))
    | Exited => receive_messages td sock reads m
    end.
Proof.
  revert m; induction reads as [|[data|] reads IH]; intro m.
  - reflexivity.
  - cbn [List.app receive_messages]. destruct data as [|b data]; [reflexivity|].
    destruct (parse_record td (b :: data)); [apply IH | reflexivity].
  - reflexivity.
Qed.

(** X17. A connection that delivers one well-formed record per read and is
    then closed by the peer puts the clock values of all its records on the
    queue, in the order sent, for any integers; the worker is still reading
    after the last record, and returns at the empty read with its socket
    closed once and no error line. *)
Theorem records_arrive_in_order (td : Z -> option Z) (sock : Sock)
    (records : list (Z * Z)) (m : Machine) :
  let open := receive_messages td sock (record_reads records) m in
  let done := receive_messages td sock (record_reads records ++ [RecvData []]) m in
  snd open = Blocked
  /\ msg_queue (fst open) = msg_queue m ++ map fst records
  /\ closed (fst open) = closed m
  /\ snd done = Exited
  /\ msg_queue (fst done) = msg_queue m ++ map fst records
  /\ closed (fst done) = closed m ++ [sock]
  /\ stderr (fst done) = stderr m.
Proof.
  assert (O : forall m0,
            snd (receive_messages td sock (record_reads records) m0) = Blocked
            /\ msg_queue (fst (receive_messages td sock (record_reads records) m0))
               = msg_queue m0 ++ map fst records
            /\ closed (fst (receive_messages td sock (record_reads records) m0))
               = closed m0
            /\ stderr (fst (receive_messages td sock (record_reads records) m0))
               = stderr m0).
  { induction records as [|[c id] records IH]; intro m0.
    - simpl. now rewrite app_nil_r.
    - pose proof (format_msg_nonempty c id) as N.
      pose proof (parse_format_msg td c id) as P.
      cbn [record_reads map fst snd receive_messages].
      destruct (format_msg c id) as [|b t] eqn:E; [congruence|].
      rewrite P. fold (record_reads records).
      destruct (IH (put c m0)) as (I1 & I2 & I3 & I4).
      rewrite I1, I2, I3, I4. simpl. now rewrite <- app_assoc. }
  intros open done. destruct (O m) as (O1 & O2 & O3 & O4).
  fold open in O1, O2, O3, O4.
  split; [exact O1|]. split; [exact O2|]. split; [exact O3|].
  assert (D : forall m0,
            snd (receive_messages td sock (record_reads records) m0) = Blocked ->
            receive_messages td sock (record_reads records ++ [RecvData []]) m0
            = (close sock (fst (receive_messages td sock (record_reads records) m0)),
               Exited)).
  { clear. induction records as [|[c id] records IH]; intros m0 B;
      [reflexivity|].
    cbn [record_reads map fst snd receive_messages List.app] in *.
    destruct (format_msg c id) as [|b t]; [discriminate B|].
    destruct (parse_record td (b :: t)); [|discriminate B].
    now apply IH. }
  unfold done. rewrite (D m O1). fold open. simpl. rewrite O2, O3, O4.
  repeat split.
Qed.

(** *** The loop condition *)

Lemma Qltb_lt (x y : Q) : Qltb x y = true <-> (x < y)%Q.
Proof.
  unfold Qltb. rewrite negb_true_iff. split.
  - intro H. apply Qnot_le_lt. intro L. apply Qle_bool_iff in L. congruence.
  - intro H. destruct (Qle_bool y x) eqn:E; [|reflexivity].
    apply Qle_bool_iff in E. exfalso. exact (Qlt_not_le _ _ H E).
Qed.

(** X19. With a run time of zero or less, and a wall clock that does not go
    backwards, [run] makes no iteration at all: the log is the INIT line and
    the SHUTDOWN line, both with clock 0, and nothing is sent. *)
Theorem run_without_iterations (id : Z) (host : str) (port : Z)
    (peers : list Addr) (ie : InitEnv) (run_time : Z) (start : Q)
    (e : TickEnv) (post : list TickEnv) (now : Q) :
  run_time <= 0 ->
  (start <= t_guard e)%Q ->
  let m0 := init id host port peers ie in
  exists m',
    run run_time start (e :: post) now m0 = Some m'
    /\ log_file m' = [init_line (t_init ie) (randint_1_12 ie);
                      log_line now "SHUTDOWN" 0 None]
    /\ logical_clock m' = 0
    /\ wire m' = [].
Proof.
  intros Hr Ht m0.
  assert (G : running start run_time e = false).
  { unfold running. destruct (Qltb _ _) eqn:E; [|reflexivity].
    apply Qltb_lt in E. exfalso.
    assert (H0 : (inject_Z run_time <= 0)%Q).
    { change 0%Q with (inject_Z 0). now rewrite <- Zle_Qle. }
    assert (H1 : (0 <= t_guard e - start)%Q).
    { unfold Qminus. now rewrite <- Qle_minus_iff. }
    apply (Qlt_not_le _ _ E). now apply Qle_trans with 0%Q. }
  exists (shutdown now m0). unfold run. cbn [run_loop]. rewrite G.
  split; [reflexivity|].
  destruct (shutdown_spec now m0) as (L & _ & _ & _ & C & _ & _ & _ & W).
  cbv zeta in L, C, W.
  destruct (init_facts id host port peers ie)
    as (_ & _ & _ & _ & C0 & _ & L0 & _ & _ & _ & W0 & _).
  fold m0 in C0, L0, W0. rewrite L, C, W, L0, C0, W0. repeat split.
Qed.

Lemma run_without_iterations_witness :
  exists m',
    run 0 5 (example_expired :: [example_tick 3 []]) 61 example_machine
    = Some m'
    /\ logical_clock m' = 0.
Proof.
  destruct (run_without_iterations 1 localhost 5001
              [(localhost, 5001); (localhost, 5002); (localhost, 5003)]
              example_env 0 5 example_expired [example_tick 3 []] 61)
    as (m' & R & _ & C & _).
  - lia.
  - unfold Qle. simpl. lia.
  - exists m'. split; [exact R | exact C].
Defined.

(** *** [__init__] of [driver.py] *)

Lemma preliminary_init_log (id : Z) (host : str) (port : Z)
    (peers : list Addr) (ie : InitEnv) :
  log_file (Preliminary.init id host port peers ie)
  = [init_line (t_init ie) (randint_1_12 ie)].
Proof.
  destruct (driver_connect_each (connect_ok ie) 0 peers
              (attributes id host port peers ie))
    as ([_ T] & _ & C & L & _).
  cbv zeta in T, C, L.
  unfold Preliminary.init, Driver.connect_to_peers. cbv zeta.
  change (peer_info (attributes id host port peers ie)) with peers.
  rewrite T. unfold log_event. cbn [log_file set_log_file].
  rewrite C, L. reflexivity.
Qed.

(* ================================================================== *)
(** ** Connecting to the peers, in both files                         *)
(* ================================================================== *)

Lemma over_entries_split {A : Type} (f : nat -> Addr -> list A) (i j : nat)
    (peers : list Addr) (p : Addr) :
  nth_error peers j = Some p ->
  over_entries f i peers
  = over_entries f i (firstn j peers) ++ f (i + j)%nat p
    ++ over_entries f (S (i + j)) (skipn (S j) peers).
Proof.
  revert i j; induction peers as [|p0 rest IH]; intros i j Hj.
  - destruct j; discriminate.
  - destruct j as [|j]; simpl in Hj.
    + injection Hj as ->. now rewrite Nat.add_0_r.
    + cbn [firstn skipn over_entries]. rewrite (IH (S i) j Hj).
      rewrite <- app_assoc. now rewrite Nat.add_succ_comm.
Qed.

(** What the loop over [peer_info] prints, sleeps and creates is what its
    entries account for, one after the other. *)
Lemma connect_each_trace (ok : nat -> nat -> bool) (i : nat)
    (peers : list Addr) (m : Machine) :
  let m' := connect_each ok i peers m in
  stderr m' = stderr m
     ++ over_entries (entry_errors (machine_id m) (own_address m) ok) i peers
  /\ sleeps m' = sleeps m
     ++ over_entries (entry_sleeps (own_address m) ok) i peers
  /\ next_sock m' = (next_sock m
     + List.length (over_entries (entry_attempts (own_address m) ok) i peers))%nat.
Proof.
  revert i m; induction peers as [|p rest IH]; intros i m.
  - simpl. rewrite !app_nil_r, Nat.add_0_r. auto.
  - cbn [connect_each over_entries].
    unfold entry_errors at 1, entry_sleeps at 1, entry_attempts at 1.
    unfold own_address at 1 3 5.
    destruct (addr_eqb p (listen_host m, listen_port m)) eqn:E.
    + exact (IH (S i) m).
    + destruct (connect_attempts_spec (ok i) p 1 max_retries m)
        as (A & Er & Sl & _ & N).
      cbv zeta in A, Er, Sl, N.
      destruct (IH (S i) (connect_attempts (ok i) p 1 max_retries m))
        as (Er' & Sl' & N').
      cbv zeta in Er', Sl', N'.
      apply apart_fields in A. destruct A as (Id & Ho & Po & _).
      unfold own_address in *. rewrite Id, Ho, Po in *.
      rewrite Er', Sl', N', Er, Sl, N, <- !app_assoc, !length_app.
      split; [reflexivity|]. split; [reflexivity|].
      destruct (first_success (ok i) 1 max_retries); simpl; lia.
Qed.

Lemma init_trace (id : Z) (host : str) (port : Z) (peers : list Addr)
    (ie : InitEnv) :
  let m := init id host port peers ie in
  stderr m = over_entries (entry_errors id (host, port) (connect_ok ie)) 0 peers
  /\ sleeps m = over_entries (entry_sleeps (host, port) (connect_ok ie)) 0 peers
  /\ next_sock m
     = S (List.length
            (over_entries (entry_attempts (host, port) (connect_ok ie)) 0 peers)).
Proof.
  destruct (init_connect_fields id host port peers ie) as (_ & E & S0 & N).
  cbv zeta in E, S0, N. cbv zeta. rewrite E, S0, N.
  destruct (connect_each_trace (connect_ok ie) 0 peers
              (attributes id host port peers ie)) as (Er & Sl & Nx).
  cbv zeta in Er, Sl, Nx. rewrite Er, Sl, Nx. repeat split.
Qed.

(** The attempts made for one entry are numbered from 1 on, without gaps, and
    are five at most. *)
Lemma entry_attempts_seq (ok : nat -> bool) :
  exists n made,
    failed ok 1 max_retries = seq 1 n
    /\ failed ok 1 max_retries
       ++ match first_success ok 1 max_retries with
          | Some k => [k]
          | None => []
          end = seq 1 made
    /\ (n <= made <= 5)%nat
    /\ match first_success ok 1 max_retries with
       | Some k => k = made /\ made = S n /\ ok k = true
       | None => made = 5%nat /\ n = 5%nat
       end.
Proof.
  destruct (failed_bound ok 1 max_retries) as (B & n & F & K).
  rewrite F in B |- *. rewrite length_seq in B.
  destruct (first_success ok 1 max_retries) as [k|].
  - destruct K as [-> K]. exists n, (S n).
    split; [reflexivity|]. split; [now rewrite seq_S|].
    unfold max_retries in B. split; [lia|]. auto.
  - exists n, n. rewrite app_nil_r. unfold max_retries in K.
    split; [reflexivity|]. split; [reflexivity|]. split; [lia|]. auto.
Qed.

(** The same for the single attempt of [driver.py]. *)
Lemma driver_connect_trace (ok : nat -> nat -> bool) (i : nat)
    (peers : list Addr) (m : Machine) :
  let m' := Driver.connect_each ok i peers m in
  stderr m' = stderr m
     ++ over_entries (driver_entry_errors (own_address m) ok) i peers
  /\ next_sock m'
     = (next_sock m + List.length (others (own_address m) peers))%nat.
Proof.
  revert i m; induction peers as [|p rest IH]; intros i m.
  - simpl. rewrite app_nil_r, Nat.add_0_r. auto.
  - cbn [Driver.connect_each over_entries others filter].
    unfold driver_entry_errors at 1. unfold own_address at 1 3.
    destruct (addr_eqb p (listen_host m, listen_port m)) eqn:E.
    + exact (IH (S i) m).
    + match goal with |- context [Driver.connect_each ok (S i) rest ?x] =>
        destruct (IH (S i) x) as (Er & N) end.
      cbv zeta in Er, N. cbv zeta. rewrite Er, N.
      destruct (ok i 1%nat); unfold own_address, others; simpl;
        rewrite <- ?app_assoc; split; try reflexivity; lia.
Qed.

Lemma preliminary_init_trace (id : Z) (host : str) (port : Z)
    (peers : list Addr) (ie : InitEnv) :
  let d := Preliminary.init id host port peers ie in
  stderr d
  = over_entries (driver_entry_errors (host, port) (connect_ok ie)) 0 peers
  /\ next_sock d = S (List.length (others (host, port) peers))
  /\ sleeps d = []
  /\ forall q, In q (connected d) <->
       (q <> (host, port)
        /\ exists j, nth_error peers j = Some q
                     /\ connect_ok ie j 1%nat = true).
Proof.
  destruct (driver_connect_trace (connect_ok ie) 0 peers
              (attributes id host port peers ie)) as (Er & N).
  destruct (driver_connect_each (connect_ok ie) 0 peers
              (attributes id host port peers ie))
    as (_ & Sl & _ & _ & _ & K).
  cbv zeta in Er, N, Sl, K. cbv zeta.
  unfold Preliminary.init, Driver.connect_to_peers. cbv zeta.
  change (peer_info (attributes id host port peers ie)) with peers.
  unfold log_event, connected.
  cbn [stderr sleeps next_sock peer_sockets set_log_file].
  rewrite Er, N, Sl.
  split; [reflexivity|]. split; [reflexivity|]. split; [reflexivity|].
  intro q. unfold connected in K. rewrite K. simpl. unfold own_address. simpl.
  tauto.
Qed.

(** C4, as the two files have it.  In [prior_distributed_machine.py], for
    every entry [i] of the peer list that holds an address [p] other than the
    machine's own, [__init__] makes the attempts numbered [1 .. made] with
    [made <= 5], of which the first [n] fail and the last succeeds unless all
    five fail; start-up as a whole prints, sleeps and creates sockets entry
    by entry, and for entry [i] that is one line on [stderr] per failed
    attempt, one second of sleep after each failed attempt but the fifth, and
    one socket per attempt.  A peer whose first two attempts fail and whose
    third succeeds is in the connection dict after start-up and stays there
    for the run; a peer none of whose attempts succeeds is not in the dict,
    neither after start-up nor at any later iteration, and start-up completes
    all the same, ending with the INIT line.  In [preliminary_work/driver.py]
    start-up makes one attempt per such entry and never sleeps: it creates
    one socket per configured peer other than itself, prints one line per
    entry whose attempt failed, and a peer is in the connection dict, then
    and for the rest of the run, exactly when one of its entries answered
    that one attempt; start-up completes with the INIT line in any case. *)
Theorem connect_retry_bound (id : Z) (host : str) (port : Z)
    (peers : list Addr) (ie : InitEnv) (i : nat) (p : Addr)
    (envs : list TickEnv) :
  nth_error peers i = Some p ->
  p <> (host, port) ->
  let self := (host, port) in
  let ok := connect_ok ie i in
  let m := init id host port peers ie in
  let d := Preliminary.init id host port peers ie in
  let errors := entry_errors id self (connect_ok ie) in
  let naps := entry_sleeps self (connect_ok ie) in
  let attempts := entry_attempts self (connect_ok ie) in
  max_retries = 5%nat
  /\ (exists n made,
        failed ok 1 max_retries = seq 1 n
        /\ attempts i p = seq 1 made
        /\ (n <= made <= 5)%nat
        /\ match first_success ok 1 max_retries with
           | Some k => k = made /\ made = S n /\ ok k = true
           | None => made = 5%nat /\ n = 5%nat
           end)
  /\ next_sock m =
       S (List.length
            (over_entries attempts 0 (firstn i peers) ++ attempts i p
             ++ over_entries attempts (S i) (skipn (S i) peers)))
  /\ stderr m =
       over_entries errors 0 (firstn i peers)
       ++ map (fun k => ErrConnect id k 5 p) (failed ok 1 max_retries)
       ++ over_entries errors (S i) (skipn (S i) peers)
  /\ sleeps m =
       over_entries naps 0 (firstn i peers)
       ++ map (fun _ => 1%Q)
            (filter (fun k => (k <? 5)%nat) (failed ok 1 max_retries))
       ++ over_entries naps (S i) (skipn (S i) peers)
  /\ (ok 1%nat = false -> ok 2%nat = false -> ok 3%nat = true ->
      failed ok 1 max_retries = [1; 2]%nat
      /\ attempts i p = [1; 2; 3]%nat
      /\ In p (connected m)
      /\ In p (connected (ticks envs m)))
  /\ ((forall j k, nth_error peers j = Some p -> connect_ok ie j k = false) ->
      failed ok 1 max_retries = [1; 2; 3; 4; 5]%nat
      /\ attempts i p = [1; 2; 3; 4; 5]%nat
      /\ ~ In p (connected m)
      /\ ~ In p (connected (ticks envs m))
      /\ log_file m = [init_line (t_init ie) (randint_1_12 ie)])
  /\ sleeps d = []
  /\ next_sock d = S (List.length (others self peers))
  /\ stderr d
     = over_entries (driver_entry_errors self (connect_ok ie)) 0 peers
  /\ (In p (connected d) <->
      exists j, nth_error peers j = Some p /\ connect_ok ie j 1%nat = true)
  /\ connected (ticks envs d) = connected d
  /\ log_file d = [init_line (t_init ie) (randint_1_12 ie)].
Proof.
  intros Hi Hp self ok m d errors naps attempts.
  assert (Hrun : forall x, connected (ticks envs x) = connected x).
  { intro x. unfold connected.
    destruct (fixed_fields _ _ (ticks_fixed envs x)) as (_ & _ & _ & P & _).
    now rewrite P. }
  assert (Hself : addr_eqb p self = false) by now apply addr_eqb_neq.
  assert (Ha : attempts i p
               = failed ok 1 max_retries
                 ++ match first_success ok 1 max_retries with
                    | Some k => [k]
                    | None => []
                    end).
  { unfold attempts, entry_attempts. now rewrite Hself. }
  assert (He : errors i p
               = map (fun k => ErrConnect id k 5 p) (failed ok 1 max_retries)).
  { unfold errors, entry_errors. now rewrite Hself. }
  assert (Hn : naps i p
               = map (fun _ => 1%Q)
                   (filter (fun k => (k <? 5)%nat) (failed ok 1 max_retries))).
  { unfold naps, entry_sleeps. now rewrite Hself. }
  destruct (init_trace id host port peers ie) as (Er & Sl & Nx).
  fold m self errors naps attempts in Er, Sl, Nx.
  split; [reflexivity|].
  split.
  { destruct (entry_attempts_seq ok) as (n & made & F & G & B & K).
    exists n, made. rewrite Ha. auto. }
  split.
  { rewrite Nx, (over_entries_split attempts 0 i peers p Hi). reflexivity. }
  split.
  { rewrite Er, (over_entries_split errors 0 i peers p Hi). cbn [Nat.add].
    now rewrite He. }
  split.
  { rewrite Sl, (over_entries_split naps 0 i peers p Hi). cbn [Nat.add].
    now rewrite Hn. }
  split.
  { intros H1 H2 H3.
    destruct (first_success_three ok H1 H2 H3) as [Fs Fl].
    split; [exact Fl|]. split; [rewrite Ha, Fs, Fl; reflexivity|].
    assert (In p (connected m)).
    { unfold m. rewrite init_connected.
      apply (connect_each_connects (connect_ok ie) 0 i peers p); auto.
      change (first_success ok 1 max_retries <> None).
      rewrite Fs. discriminate. }
    split; [assumption | now rewrite Hrun]. }
  split.
  { intros Hnever.
    assert (Hk : forall k, ok k = false) by (intro k; now apply Hnever).
    destruct (first_success_never ok Hk) as [Fs Fl].
    split; [exact Fl|]. split; [rewrite Ha, Fs, Fl; reflexivity|].
    assert (~ In p (connected m)).
    { unfold m. rewrite init_connected.
      apply connect_each_absent; [|simpl; tauto].
      intros j Hj. apply first_success_never. intro k. now apply Hnever. }
    split; [assumption|]. split; [now rewrite Hrun|].
    apply init_facts. }
  destruct (preliminary_init_trace id host port peers ie) as (De & Dn & Ds & Dk).
  fold d self in De, Dn, Ds, Dk.
  split; [exact Ds|]. split; [exact Dn|]. split; [exact De|].
  split.
  { rewrite Dk. split; [tauto|]. intro H. split; [exact Hp | exact H]. }
  split; [apply Hrun|].
  apply preliminary_init_log.
Qed.

Lemma connect_retry_bound_witness :
  nth_error [(localhost, 5001); (localhost, 5002); (localhost, 5003)] 1
    = Some (localhost, 5002)
  /\ (localhost, 5002) <> (localhost, 5001)
  /\ In (localhost, 5002) (connected example_machine)
  /\ sleeps example_machine = [1; 1; 1; 1]%Q
  /\ ~ In (localhost, 5002)
         (connected (init 1 localhost 5001
                       [(localhost, 5001); (localhost, 5002); (localhost, 5003)]
                       unreachable_env)).
Proof.
  assert (N : (localhost, 5002) <> (localhost, 5001)) by discriminate.
  split; [reflexivity|]. split; [exact N|].
  pose proof (connect_retry_bound 1 localhost 5001
                [(localhost, 5001); (localhost, 5002); (localhost, 5003)]
                example_env 1 (localhost, 5002) [] eq_refl N) as H.
  pose proof (connect_retry_bound 1 localhost 5001
                [(localhost, 5001); (localhost, 5002); (localhost, 5003)]
                unreachable_env 1 (localhost, 5002) [] eq_refl N) as U.
  cbv zeta in H, U.
  destruct H as (_ & _ & _ & _ & S0 & H & _).
  destruct U as (_ & _ & _ & _ & _ & _ & U & _).
  split; [apply H; reflexivity|].
  split; [exact S0|].
  apply U. reflexivity.
Defined.

(** [driver.py] gives up on a peer at the first failed attempt: a peer that
    would answer the third attempt, its first two failing, is not in the
    connection dict after start-up, and start-up has neither slept nor made
    a second attempt. *)
Lemma driver_gives_up_at_once :
  connect_ok example_env 1 1 = false
  /\ connect_ok example_env 1 2 = false
  /\ connect_ok example_env 1 3 = true
  /\ ~ In (localhost, 5002)
         (connected (Preliminary.init 1 localhost 5001
                       [(localhost, 5001); (localhost, 5002); (localhost, 5003)]
                       example_env))
  /\ sleeps (Preliminary.init 1 localhost 5001
               [(localhost, 5001); (localhost, 5002); (localhost, 5003)]
               example_env) = []
  /\ next_sock (Preliminary.init 1 localhost 5001
                  [(localhost, 5001); (localhost, 5002); (localhost, 5003)]
                  example_env) = 3%nat
  /\ stderr (Preliminary.init 1 localhost 5001
               [(localhost, 5001); (localhost, 5002); (localhost, 5003)]
               example_env)
     = [ErrConnectOnce (localhost, 5002); ErrConnectOnce (localhost, 5003)].
Proof.
  split; [reflexivity|]. split; [reflexivity|]. split; [reflexivity|].
  split; [|split; [reflexivity|split; reflexivity]].
  change (~ In (localhost, 5002) []). intros [].
Qed.
